(** * A shallow embedding of the stateright register wrapper
      ([src/actor/register.rs]) and of the write-once register example
      ([examples/wor.rs]), with the actor-system model they run in. *)

From Stdlib Require Import List Bool Arith Lia NArith ZArith String Ascii.
From Stdlib Require Import Sorting.Sorted Sorting.Permutation.
Import ListNotations.

Set Implicit Arguments.

(** ** Actor interface ([crate::actor]) *)

(** Actor ids are positions in the system's actor list ([usize]). *)
Definition Id := nat.

(** [ActorInput::Deliver { src, msg }], the only input variant. *)
Inductive ActorInput (Msg : Type) : Type :=
| Deliver (src : Id) (msg : Msg).
Arguments Deliver {Msg} src msg.

(** An output [outputs.send(dst, msg)]: destination and message. *)
Definition Output (Msg : Type) : Type := (Id * Msg)%type.

(** [ActorResult { state, outputs }]. *)
Record ActorResult (Msg State : Type) : Type := mkActorResult {
  state : State;
  outputs : list (Output Msg)
}.
Arguments mkActorResult {Msg State} state outputs.
Arguments state {Msg State} _.
Arguments outputs {Msg State} _.

(** Modelled from the spec: the helpers [ActorResult::start] and
    [ActorResult::advance] of [crate::actor] (not in this source tree).
    A mutation closure is modelled as a function from the (cloned) state
    to the new state and the outputs it sends, in order.
    [ActorResult::advance] always yields a transition. *)
Definition ActorResult_start {Msg State : Type}
    (s : State) (sends : list (Output Msg)) : ActorResult Msg State :=
  mkActorResult s sends.

Definition ActorResult_advance {Msg State : Type}
    (s : State) (mutation : State -> State * list (Output Msg))
    : option (ActorResult Msg State) :=
  let '(s', outs) := mutation s in Some (mkActorResult s' outs).

(** The [Actor<Id>] trait, with its associated types [Msg] and [State]
    as parameters. *)
Class Actor (Cfg Msg State : Type) : Type := {
  start : Cfg -> ActorResult Msg State;
  advance : Cfg -> State -> ActorInput Msg -> option (ActorResult Msg State)
}.

(** ** Register wrapper ([src/actor/register.rs]) *)

Inductive RegisterMsg (Value ServerMsg : Type) : Type :=
| Put (value : Value)
| Get
| Respond (value : Value)
| Internal (msg : ServerMsg).
Arguments Put {Value ServerMsg} value.
Arguments Get {Value ServerMsg}.
Arguments Respond {Value ServerMsg} value.
Arguments Internal {Value ServerMsg} msg.

Inductive RegisterCfg (Value ServerCfg : Type) : Type :=
| Client (server_ids : list Id) (desired_value : Value)
| Server (server_cfg : ServerCfg).
Arguments Client {Value ServerCfg} server_ids desired_value.
Arguments Server {Value ServerCfg} server_cfg.

Inductive RegisterState (ServerState : Type) : Type :=
| RSClient
| RSServer (server_state : ServerState).
Arguments RSClient {ServerState}.
Arguments RSServer {ServerState} server_state.

Section RegisterActor.
Context {Value ServerMsg ServerCfg ServerState : Type}.
Context `{SA : Actor ServerCfg (RegisterMsg Value ServerMsg) ServerState}.

(** The client's boot-time sends: for each server id, [Put] then [Get]. *)
Fixpoint client_sends (server_ids : list Id) (desired_value : Value)
    : list (Output (RegisterMsg Value ServerMsg)) :=
  match server_ids with
  | [] => []
  | server_id :: rest =>
      (server_id, Put desired_value) :: (server_id, Get)
        :: client_sends rest desired_value
  end.

Definition RegisterCfg_start (cfg : RegisterCfg Value ServerCfg)
    : ActorResult (RegisterMsg Value ServerMsg) (RegisterState ServerState) :=
  match cfg with
  | Client server_ids desired_value =>
      ActorResult_start RSClient (client_sends server_ids desired_value)
  | Server server_cfg =>
      let server_result := start server_cfg in
      mkActorResult (RSServer (state server_result)) (outputs server_result)
  end.

Definition RegisterCfg_advance (cfg : RegisterCfg Value ServerCfg)
    (st : RegisterState ServerState)
    (input : ActorInput (RegisterMsg Value ServerMsg))
    : option (ActorResult (RegisterMsg Value ServerMsg)
                          (RegisterState ServerState)) :=
  match cfg with
  | Server server_cfg =>
      match st with
      | RSServer server_state =>
          match advance server_cfg server_state input with
          | Some server_result =>
              Some (mkActorResult (RSServer (state server_result))
                                  (outputs server_result))
          | None => None
          end
      | RSClient => None
      end
  | Client _ _ => None
  end.

#[global] Instance RegisterCfg_Actor
  : Actor (RegisterCfg Value ServerCfg) (RegisterMsg Value ServerMsg)
          (RegisterState ServerState) := {
  start := RegisterCfg_start;
  advance := RegisterCfg_advance
}.
End RegisterActor.

(** ** The write-once register ([examples/wor.rs]) *)

(** Rust [char], as its Unicode scalar value. *)
Definition char := N.
Definition Value := char.

Record ServerState : Type := mkServerState { maybe_value : option Value }.

Inductive ServerCfg : Type := ServerCfg_.

Definition wor_Msg := RegisterMsg Value unit.

Definition ServerCfg_start (_ : ServerCfg) : ActorResult wor_Msg ServerState :=
  ActorResult_start (mkServerState None) [].

Definition ServerCfg_advance (_ : ServerCfg) (st : ServerState)
    (input : ActorInput wor_Msg) : option (ActorResult wor_Msg ServerState) :=
  let 'Deliver src msg := input in
  match msg with
  | Put value =>
      match maybe_value st with
      | None => ActorResult_advance st (fun _ => (mkServerState (Some value), []))
      | Some _ => None
      end
  | Get =>
      match maybe_value st with
      | Some value => ActorResult_advance st (fun s => (s, [(src, Respond value)]))
      | None => None
      end
  | _ => None
  end.

#[global] Instance ServerCfg_Actor : Actor ServerCfg wor_Msg ServerState := {
  start := ServerCfg_start;
  advance := ServerCfg_advance
}.

(** The server's state after a sequence of delivered inputs; an ignored
    input leaves the state as it is. *)
Fixpoint run_inputs (st : ServerState) (inputs : list (ActorInput wor_Msg))
    : ServerState :=
  match inputs with
  | [] => st
  | input :: rest =>
      match ServerCfg_advance ServerCfg_ st input with
      | Some r => run_inputs (state r) rest
      | None => run_inputs st rest
      end
  end.

(** ** Envelopes, snapshots and the actor system ([crate::actor::system]) *)

(** Modelled from the spec: [Envelope], [ActorSystemSnapshot],
    [ActorSystem] and [LossyNetwork] of [crate::actor::system] (not in this
    source tree). The network is an ordered sequence of envelopes, as the
    reference behaviour keeps it. *)
Record Envelope (Msg : Type) : Type := mkEnvelope {
  env_src : Id;
  env_dst : Id;
  env_msg : Msg
}.
Arguments mkEnvelope {Msg} env_src env_dst env_msg.
Arguments env_src {Msg} _.
Arguments env_dst {Msg} _.
Arguments env_msg {Msg} _.

Record ActorSystemSnapshot (Msg State : Type) : Type := mkSnapshot {
  actor_states : list State;
  network : list (Envelope Msg)
}.
Arguments mkSnapshot {Msg State} actor_states network.
Arguments actor_states {Msg State} _.
Arguments network {Msg State} _.

Inductive LossyNetwork : Type := LossyYes | LossyNo.

Record ActorSystem (Cfg Msg : Type) : Type := mkActorSystem {
  actors : list Cfg;
  init_network : list (Envelope Msg);
  lossy_network : LossyNetwork
}.
Arguments mkActorSystem {Cfg Msg} actors init_network lossy_network.
Arguments actors {Cfg Msg} _.
Arguments init_network {Cfg Msg} _.
Arguments lossy_network {Cfg Msg} _.

(** One exploration step, as recorded in a failure trace. *)
Inductive SystemAction (Msg : Type) : Type :=
| ActDrop (e : Envelope Msg)
| ActDeliver (e : Envelope Msg).
Arguments ActDrop {Msg} e.
Arguments ActDeliver {Msg} e.

(** [Vec::remove]: drops the element at index [i], keeping the order. *)
Fixpoint remove_nth {A : Type} (i : nat) (l : list A) : list A :=
  match l, i with
  | [], _ => []
  | _ :: xs, 0 => xs
  | x :: xs, S i' => x :: remove_nth i' xs
  end.

(** [v[i] = x]: replaces the element at index [i]. *)
Fixpoint replace_nth {A : Type} (i : nat) (x : A) (l : list A) : list A :=
  match l, i with
  | [], _ => []
  | _ :: ys, 0 => x :: ys
  | y :: ys, S i' => y :: replace_nth i' x ys
  end.

Section System.
Context {Cfg Msg State : Type} `{A : Actor Cfg Msg State}.

Definition envelopes_of (src : Id) (outs : list (Output Msg))
    : list (Envelope Msg) :=
  map (fun '(dst, msg) => mkEnvelope src dst msg) outs.

(** Modelled from the spec (section 4.3, step 1): every actor is started
    in order and its outputs are appended, after the initial network. *)
Fixpoint start_all (i : Id) (cfgs : list Cfg)
    : list State * list (Envelope Msg) :=
  match cfgs with
  | [] => ([], [])
  | cfg :: rest =>
      let r := start cfg in
      let '(states, envs) := start_all (S i) rest in
      (state r :: states, envelopes_of i (outputs r) ++ envs)
  end.

Definition init_snapshot (sys : ActorSystem Cfg Msg)
    : ActorSystemSnapshot Msg State :=
  let '(states, envs) := start_all 0 (actors sys) in
  mkSnapshot states (init_network sys ++ envs).

(** Modelled from the spec (section 4.2): the successor of delivering the
    envelope [e] found at index [i] of the network. A transition replaces
    the destination's state and appends its outputs; an ignored input only
    removes [e]. A destination that is not an actor of the system offers
    no delivery. *)
Definition deliver (sys : ActorSystem Cfg Msg)
    (s : ActorSystemSnapshot Msg State) (i : nat) (e : Envelope Msg)
    : option (ActorSystemSnapshot Msg State) :=
  match nth_error (actors sys) (env_dst e),
        nth_error (actor_states s) (env_dst e) with
  | Some cfg, Some st =>
      match advance cfg st (Deliver (env_src e) (env_msg e)) with
      | Some r =>
          Some (mkSnapshot (replace_nth (env_dst e) (state r) (actor_states s))
                  (remove_nth i (network s) ++ envelopes_of (env_dst e) (outputs r)))
      | None =>
          Some (mkSnapshot (actor_states s) (remove_nth i (network s)))
      end
  | _, _ => None
  end.

Definition drop (s : ActorSystemSnapshot Msg State) (i : nat)
    : ActorSystemSnapshot Msg State :=
  mkSnapshot (actor_states s) (remove_nth i (network s)).

(** Modelled from the spec (section 4.2): every successor, one per pending
    envelope and delivery outcome, in network order. *)
Fixpoint steps_from (sys : ActorSystem Cfg Msg)
    (s : ActorSystemSnapshot Msg State) (i : nat) (pending : list (Envelope Msg))
    : list (SystemAction Msg * ActorSystemSnapshot Msg State) :=
  match pending with
  | [] => []
  | e :: rest =>
      (match lossy_network sys with
       | LossyYes => [(ActDrop e, drop s i)]
       | LossyNo => []
       end)
      ++ (match deliver sys s i e with
          | Some s' => [(ActDeliver e, s')]
          | None => []
          end)
      ++ steps_from sys s (S i) rest
  end.

Definition next_steps (sys : ActorSystem Cfg Msg)
    (s : ActorSystemSnapshot Msg State)
    : list (SystemAction Msg * ActorSystemSnapshot Msg State) :=
  steps_from sys s 0 (network s).

(** The step relation and reachability. *)
Definition Step (sys : ActorSystem Cfg Msg)
    (s s' : ActorSystemSnapshot Msg State) : Prop :=
  exists a, In (a, s') (next_steps sys s).

Inductive Reachable (sys : ActorSystem Cfg Msg)
    : ActorSystemSnapshot Msg State -> Prop :=
| reach_init : Reachable sys (init_snapshot sys)
| reach_step : forall s s', Reachable sys s -> Step sys s s' -> Reachable sys s'.

(** ** The checker (modelled from the spec, section 4.3) *)

Inductive CheckResult : Type :=
| Pass
| Fail (path : list (SystemAction Msg)).

Variable snapshot_eqb :
  ActorSystemSnapshot Msg State -> ActorSystemSnapshot Msg State -> bool.
Variable invariant :
  ActorSystem Cfg Msg -> ActorSystemSnapshot Msg State -> bool.

Definition visited_mem (s : ActorSystemSnapshot Msg State)
    (visited : list (ActorSystemSnapshot Msg State)) : bool :=
  existsb (snapshot_eqb s) visited.

(** Folds the successors of one expanded snapshot into the frontier and
    the visited set, or fails at the first rejected successor. *)
Fixpoint visit_successors (sys : ActorSystem Cfg Msg)
    (path : list (SystemAction Msg))
    (succs : list (SystemAction Msg * ActorSystemSnapshot Msg State))
    (frontier : list (ActorSystemSnapshot Msg State * list (SystemAction Msg)))
    (visited : list (ActorSystemSnapshot Msg State))
    : (list (SystemAction Msg))
      + (list (ActorSystemSnapshot Msg State * list (SystemAction Msg))
         * list (ActorSystemSnapshot Msg State)) :=
  match succs with
  | [] => inr (frontier, visited)
  | (a, s') :: rest =>
      if negb (invariant sys s') then inl (path ++ [a])
      else if visited_mem s' visited
      then visit_successors sys path rest frontier visited
      else visit_successors sys path rest
             (frontier ++ [(s', path ++ [a])]) (visited ++ [s'])
  end.

(** Breadth-first exploration expanding at most [bound] snapshots;
    returns the result and the visited snapshots ([sources()]). *)
Fixpoint explore (sys : ActorSystem Cfg Msg) (bound : nat)
    (frontier : list (ActorSystemSnapshot Msg State * list (SystemAction Msg)))
    (visited : list (ActorSystemSnapshot Msg State))
    : CheckResult * list (ActorSystemSnapshot Msg State) :=
  match bound with
  | 0 => (Pass, visited)
  | S bound' =>
      match frontier with
      | [] => (Pass, visited)
      | (s, path) :: rest =>
          match visit_successors sys path (next_steps sys s) rest visited with
          | inl fail_path => (Fail fail_path, visited)
          | inr (frontier', visited') => explore sys bound' frontier' visited'
          end
      end
  end.

Definition check (sys : ActorSystem Cfg Msg) (bound : nat)
    : CheckResult * list (ActorSystemSnapshot Msg State) :=
  let s0 := init_snapshot sys in
  if negb (invariant sys s0) then (Fail [], [s0])
  else explore sys bound [(s0, [])] [s0].
End System.
Arguments Pass {Msg}.
Arguments Fail {Msg} path.

(** ** [response_values] ([src/actor/register.rs]) *)

Section ResponseValues.
Context {Value ServerMsg ServerState : Type}.
(** [Ord::cmp] and [PartialEq::eq] of [Value]. *)
Variable cmp : Value -> Value -> comparison.
Variable eqb : Value -> Value -> bool.

(** Stable insertion of [x] before the elements not smaller than it. *)
Fixpoint insert_sorted (x : Value) (l : list Value) : list Value :=
  match l with
  | [] => [x]
  | y :: ys =>
      match cmp x y with
      | Gt => y :: insert_sorted x ys
      | _ => x :: y :: ys
      end
  end.

(** [<[T]>::sort]: a stable sort by [cmp]. *)
Fixpoint sort (l : list Value) : list Value :=
  match l with
  | [] => []
  | x :: xs => insert_sorted x (sort xs)
  end.

(** [Vec::dedup]: drops consecutive repeats, keeping the first of a run. *)
Fixpoint dedup_from (x : Value) (l : list Value) : list Value :=
  match l with
  | [] => [x]
  | y :: ys => if eqb x y then dedup_from x ys else x :: dedup_from y ys
  end.

Definition dedup (l : list Value) : list Value :=
  match l with
  | [] => []
  | x :: xs => dedup_from x xs
  end.

Definition respond_value (env : Envelope (RegisterMsg Value ServerMsg))
    : option Value :=
  match env_msg env with
  | Respond value => Some value
  | _ => None
  end.

Fixpoint filter_map {X Y : Type} (f : X -> option Y) (l : list X) : list Y :=
  match l with
  | [] => []
  | x :: xs =>
      match f x with
      | Some y => y :: filter_map f xs
      | None => filter_map f xs
      end
  end.

Definition response_values
    (st : ActorSystemSnapshot (RegisterMsg Value ServerMsg)
                              (RegisterState ServerState)) : list Value :=
  let values := filter_map respond_value (network st) in
  dedup (sort values).
End ResponseValues.

(** ** The write-once register system *)

Definition char_eqb : char -> char -> bool := N.eqb.
Definition char_cmp : char -> char -> comparison := N.compare.

Definition wor_Cfg := RegisterCfg Value ServerCfg.
Definition wor_State := RegisterState ServerState.
Definition wor_Snapshot := ActorSystemSnapshot wor_Msg wor_State.

Definition wor_response_values (s : wor_Snapshot) : list Value :=
  response_values char_cmp char_eqb s.

Definition msg_eqb (m1 m2 : wor_Msg) : bool :=
  match m1, m2 with
  | Put v1, Put v2 => char_eqb v1 v2
  | Get, Get => true
  | Respond v1, Respond v2 => char_eqb v1 v2
  | Internal tt, Internal tt => true
  | _, _ => false
  end.

Definition option_eqb {X : Type} (f : X -> X -> bool) (a b : option X) : bool :=
  match a, b with
  | Some x, Some y => f x y
  | None, None => true
  | _, _ => false
  end.

Definition state_eqb (s1 s2 : wor_State) : bool :=
  match s1, s2 with
  | RSClient, RSClient => true
  | RSServer a, RSServer b => option_eqb char_eqb (maybe_value a) (maybe_value b)
  | _, _ => false
  end.

Definition envelope_eqb (e1 e2 : Envelope wor_Msg) : bool :=
  Nat.eqb (env_src e1) (env_src e2) && Nat.eqb (env_dst e1) (env_dst e2)
  && msg_eqb (env_msg e1) (env_msg e2).

Fixpoint list_eqb {X : Type} (f : X -> X -> bool) (l1 l2 : list X) : bool :=
  match l1, l2 with
  | [], [] => true
  | x :: xs, y :: ys => f x y && list_eqb f xs ys
  | _, _ => false
  end.

(** Structural equality of snapshots (the derived [Eq]). *)
Definition snapshot_eqb (s1 s2 : wor_Snapshot) : bool :=
  list_eqb state_eqb (actor_states s1) (actor_states s2)
  && list_eqb envelope_eqb (network s1) (network s2).

(** The checker of [can_model_wor]: no value, or one value that is ['X'] or ['Y']. *)
Definition char_X : char := 88%N.
Definition char_Y : char := 89%N.

Definition can_model_wor_invariant (_ : ActorSystem wor_Cfg wor_Msg)
    (s : wor_Snapshot) : bool :=
  match wor_response_values s with
  | [] => true
  | [v] => char_eqb v char_X || char_eqb v char_Y
  | _ => false
  end.

Definition can_model_wor_system : ActorSystem wor_Cfg wor_Msg :=
  mkActorSystem
    [Server ServerCfg_; Client [0] char_X; Client [0] char_Y]
    [] LossyYes.

(** A snapshot with three [Respond] envelopes carrying two values. *)
Definition sample_snapshot : wor_Snapshot :=
  mkSnapshot [RSServer (mkServerState (Some char_Y)); RSClient; RSClient]
    [mkEnvelope 0 2 (Respond char_Y); mkEnvelope 1 0 Get;
     mkEnvelope 0 1 (Respond char_X); mkEnvelope 0 1 (Respond char_Y)].

Definition can_model_wor_check :=
  check snapshot_eqb can_model_wor_invariant can_model_wor_system 10000.

(** ** Wire encoding ([serde] / [serde_json]) *)

(** A JSON document; strings are sequences of Unicode scalar values. The
    bytes handled by [serialize]/[deserialize] are modelled as the JSON
    document they hold ([serde_json::to_vec] / [serde_json::from_slice]). *)
Inductive json : Type :=
| JNull
| JBool (b : bool)
| JNumber (n : Z)
| JString (s : list char)
| JArray (items : list json)
| JObject (fields : list (list char * json)).

Definition str (s : string) : list char :=
  map N_of_ascii (list_ascii_of_string s).

Definition chars_eqb (a b : list char) : bool := list_eqb N.eqb a b.

Inductive serde_error : Type := SerdeError.

(** [serde_json::Result<T>]. *)
Inductive Result (T : Type) : Type :=
| Ok (x : T)
| Err (e : serde_error).
Arguments Ok {T} x.
Arguments Err {T} e.

(** A type with derived [Serialize] and [Deserialize]: its JSON form and
    the partial decoder of that form. *)
Class Serde (T : Type) : Type := {
  to_json : T -> json;
  from_json : json -> option T
}.

(** [serde_json::to_vec] and [serde_json::from_slice]. *)
Definition to_vec {T : Type} `{Serde T} (x : T) : Result json := Ok (to_json x).

Definition from_slice {T : Type} `{Serde T} (bytes : json) : Result T :=
  match from_json bytes with
  | Some x => Ok x
  | None => Err SerdeError
  end.

(** [char]: a string of exactly one scalar value. *)
#[global] Instance char_Serde : Serde char := {
  to_json c := JString [c];
  from_json j := match j with JString [c] => Some c | _ => None end
}.

(** [()]: [null]. *)
#[global] Instance unit_Serde : Serde unit := {
  to_json _ := JNull;
  from_json j := match j with JNull => Some tt | _ => None end
}.

(** Rust [String]. *)
Inductive RustString : Type := RString (s : list char).

#[global] Instance RustString_Serde : Serde RustString := {
  to_json s := let 'RString cs := s in JString cs;
  from_json j := match j with JString cs => Some (RString cs) | _ => None end
}.

Section RegisterSerde.
Context {Value ServerMsg : Type} `{SV : Serde Value} `{SM : Serde ServerMsg}.

(** [#[derive(Serialize)]] on [RegisterMsg]: externally tagged. *)
Definition RegisterMsg_to_json (m : RegisterMsg Value ServerMsg) : json :=
  match m with
  | Put value => JObject [(str "Put", JObject [(str "value", to_json value)])]
  | Get => JString (str "Get")
  | Respond value =>
      JObject [(str "Respond", JObject [(str "value", to_json value)])]
  | Internal msg => JObject [(str "Internal", to_json msg)]
  end.

Definition value_field (body : json) : option Value :=
  match body with
  | JObject [(k, v)] => if chars_eqb k (str "value") then from_json v else None
  | _ => None
  end.

(** [#[derive(Deserialize)]] on [RegisterMsg], for the forms above. *)
Definition RegisterMsg_from_json (j : json) : option (RegisterMsg Value ServerMsg) :=
  match j with
  | JString s => if chars_eqb s (str "Get") then Some Get else None
  | JObject [(tag, body)] =>
      if chars_eqb tag (str "Put") then option_map Put (value_field body)
      else if chars_eqb tag (str "Respond") then option_map Respond (value_field body)
      else if chars_eqb tag (str "Internal") then option_map Internal (from_json body)
      else None
  | _ => None
  end.

#[global] Instance RegisterMsg_Serde : Serde (RegisterMsg Value ServerMsg) := {
  to_json := RegisterMsg_to_json;
  from_json := RegisterMsg_from_json
}.

Definition RegisterCfg_deserialize {ServerCfg : Type}
    (_ : RegisterCfg Value ServerCfg) (bytes : json)
    : Result (RegisterMsg Value ServerMsg) :=
  match from_slice (T := ServerMsg) bytes with
  | Ok msg => Ok (Internal msg)
  | Err _ => from_slice (T := RegisterMsg Value ServerMsg) bytes
  end.

Definition RegisterCfg_serialize {ServerCfg : Type}
    (_ : RegisterCfg Value ServerCfg) (msg : RegisterMsg Value ServerMsg)
    : Result json :=
  match msg with
  | Internal msg => to_vec msg
  | _ => to_vec msg
  end.
End RegisterSerde.

(** ** The [check] subcommand of [examples/wor.rs] *)

(** [u8::from_str], as [value_t!(args, "client_count", u8)] calls it: an
    optional ['+'], then at least one decimal digit, the value checked for
    overflow after every digit. *)
Fixpoint u8_digits (acc : N) (s : list char) : option N :=
  match s with
  | [] => Some acc
  | c :: rest =>
      if (48 <=? c)%N && (c <=? 57)%N then
        let acc' := (acc * 10 + (c - 48))%N in
        if (acc' <=? 255)%N then u8_digits acc' rest else None
      else None
  end.

Definition u8_from_str (s : list char) : option N :=
  match s with
  | [] => None
  | c :: rest =>
      if (c =? 43)%N then
        match rest with
        | [] => None
        | _ => u8_digits 0 rest
        end
      else u8_digits 0 s
  end.

(** [u8] addition, wrapping modulo 256. *)
Definition u8_add (a b : N) : N := ((a + b) mod 256)%N.

(** [('A' as u8 + i) as char] for the [i]-th client. *)
Definition client_value (i : nat) : char := u8_add 65 (N.of_nat i).

Definition check_clients (client_count : N) : list wor_Cfg :=
  map (fun i => Client [0] (client_value i)) (seq 0 (N.to_nat client_count)).

(** The system the [check] subcommand builds from its [client_count]
    argument, with the count it uses; [None] when the argument does not
    parse as a [u8] and [.expect("client_count")] panics. *)
Definition check_command (client_count_arg : list char)
    : option (N * ActorSystem wor_Cfg wor_Msg) :=
  match u8_from_str client_count_arg with
  | None => None
  | Some requested =>
      let client_count := N.min 26 requested in
      let actors := Server ServerCfg_ :: check_clients client_count in
      Some (client_count, mkActorSystem actors [] LossyYes)
  end.

(** ** The repository's network: a set of envelopes with redelivery *)

(** The network of the actor system the repository's checker explores
    (not in [src/]; the spec's sections 3 and 4.2 describe the ordered,
    removing network above instead): the network is a set (an envelope is
    added only if absent), a delivered envelope stays in flight and may be
    delivered again, and only a loss removes it. *)
Section RedeliveringNetwork.
Context {Cfg Msg State : Type} `{A : Actor Cfg Msg State}.
Variable env_eqb : Envelope Msg -> Envelope Msg -> bool.

Definition set_add (e : Envelope Msg) (net : list (Envelope Msg)) :=
  if existsb (env_eqb e) net then net else net ++ [e].

Definition deliver_keep (sys : ActorSystem Cfg Msg)
    (s : ActorSystemSnapshot Msg State) (e : Envelope Msg)
    : option (ActorSystemSnapshot Msg State) :=
  match nth_error (actors sys) (env_dst e),
        nth_error (actor_states s) (env_dst e) with
  | Some cfg, Some st =>
      match advance cfg st (Deliver (env_src e) (env_msg e)) with
      | Some r =>
          Some (mkSnapshot (replace_nth (env_dst e) (state r) (actor_states s))
                  (fold_left (fun net e' => set_add e' net)
                     (envelopes_of (env_dst e) (outputs r)) (network s)))
      | None => None
      end
  | _, _ => None
  end.

Fixpoint steps_keep_from (sys : ActorSystem Cfg Msg)
    (s : ActorSystemSnapshot Msg State) (i : nat) (pending : list (Envelope Msg))
    : list (SystemAction Msg * ActorSystemSnapshot Msg State) :=
  match pending with
  | [] => []
  | e :: rest =>
      (match lossy_network sys with
       | LossyYes => [(ActDrop e, drop s i)]
       | LossyNo => []
       end)
      ++ (match deliver_keep sys s e with
          | Some s' => [(ActDeliver e, s')]
          | None => []
          end)
      ++ steps_keep_from sys s (S i) rest
  end.

(** Breadth-first exploration over this network; snapshots are merged
    when their actor states agree and their networks hold the same
    envelopes. *)
Variable snapshot_eqv :
  ActorSystemSnapshot Msg State -> ActorSystemSnapshot Msg State -> bool.

Fixpoint explore_keep (sys : ActorSystem Cfg Msg) (bound : nat)
    (frontier visited : list (ActorSystemSnapshot Msg State))
    : list (ActorSystemSnapshot Msg State) :=
  match bound, frontier with
  | 0, _ | _, [] => visited
  | S bound', s :: rest =>
      let fresh := fold_left
        (fun acc '(_, s') =>
           if existsb (snapshot_eqv s') (fst acc) then acc
           else (fst acc ++ [s'], snd acc ++ [s']))
        (steps_keep_from sys s 0 (network s)) (visited, rest) in
      explore_keep sys bound' (snd fresh) (fst fresh)
  end.
End RedeliveringNetwork.

Definition net_subset (n1 n2 : list (Envelope wor_Msg)) : bool :=
  forallb (fun e => existsb (envelope_eqb e) n2) n1.

Definition snapshot_set_eqv (s1 s2 : wor_Snapshot) : bool :=
  list_eqb state_eqb (actor_states s1) (actor_states s2)
  && net_subset (network s1) (network s2) && net_subset (network s2) (network s1).

Definition can_model_wor_redelivering_sources : list wor_Snapshot :=
  let s0 := init_snapshot (A := RegisterCfg_Actor) can_model_wor_system in
  explore_keep envelope_eqb snapshot_set_eqv can_model_wor_system 10000 [s0] [s0].

(** The checker of the repository's actor system (not in [src/]) over this
    network: the network is a set of envelopes, a delivery leaves the
    delivered envelope in flight so that it may be delivered again, a loss
    removes it, and a delivery the destination ignores offers no successor.
    The exploration is the breadth-first one of [explore], with the
    invariant checked on every new snapshot. *)
Section RedeliveringChecker.
Context {Cfg Msg State : Type} `{A : Actor Cfg Msg State}.
Variable env_eqb : Envelope Msg -> Envelope Msg -> bool.
Variable snapshot_eqv :
  ActorSystemSnapshot Msg State -> ActorSystemSnapshot Msg State -> bool.
Variable invariant :
  ActorSystem Cfg Msg -> ActorSystemSnapshot Msg State -> bool.


End RedeliveringChecker.


(** ** The single-value invariant of the write-once register system *)

Definition is_server (cfg : wor_Cfg) : bool :=
  match cfg with
  | Server _ => true
  | Client _ _ => false
  end.

(** The number of server actors of a system. *)
Fixpoint server_count (cfgs : list wor_Cfg) : nat :=
  match cfgs with
  | [] => 0
  | cfg :: rest => (if is_server cfg then 1 else 0) + server_count rest
  end.

(** A state of the shape an actor's configuration gives it. *)
Definition state_fits (cfg : wor_Cfg) (st : wor_State) : Prop :=
  match cfg, st with
  | Server _, RSServer _ => True
  | Client _ _, RSClient => True
  | _, _ => False
  end.

(** Each state fits its actor, and every [Respond] in flight carries a
    value some server holds. *)
Definition wor_inv (sys : ActorSystem wor_Cfg wor_Msg) (s : wor_Snapshot) : Prop :=
  Forall2 state_fits (actors sys) (actor_states s)
  /\ forall e v, In e (network s) -> env_msg e = Respond v ->
       exists j, nth_error (actor_states s) j
                 = Some (RSServer (mkServerState (Some v))).

(** ** Client values and the invariant of the [check] subcommand *)

(** The [desired_value]s of the clients of a system, in order. *)
Definition client_values (cfgs : list wor_Cfg) : list Value :=
  flat_map (fun cfg => match cfg with
                       | Client _ v => [v]
                       | Server _ => []
                       end) cfgs.

(** [u8] subtraction, wrapping modulo 256 (operands below 256). *)
Definition u8_sub (a b : N) : N := ((a + 256 - b) mod 256)%N.

(** The checker of the [check] subcommand: no value, or one value between
    ['A'] and [('A' as u8 + client_count - 1) as char]. *)
Definition main_check_invariant (client_count : N)
    (_ : ActorSystem wor_Cfg wor_Msg) (s : wor_Snapshot) : bool :=
  match wor_response_values s with
  | [] => true
  | [v] => (65 <=? v)%N && (v <=? u8_sub (u8_add 65 client_count) 1)%N
  | _ => false
  end.

(** Each state fits its actor, every [Put] or [Respond] in flight carries a
    client's value, and so does every value a server holds. *)
Definition values_inv (sys : ActorSystem wor_Cfg wor_Msg) (s : wor_Snapshot) : Prop :=
  Forall2 state_fits (actors sys) (actor_states s)
  /\ (forall e v, In e (network s) ->
        env_msg e = Put v \/ env_msg e = Respond v ->
        In v (client_values (actors sys)))
  /\ (forall j v, nth_error (actor_states s) j
                  = Some (RSServer (mkServerState (Some v))) ->
        In v (client_values (actors sys))).

(** A snapshot of [can_model_wor] where the server holds ['X'] and the
    second client's [Put] is still in flight, and its successor once that
    [Put] is delivered. *)
Definition late_put_snapshot : wor_Snapshot :=
  mkSnapshot [RSServer (mkServerState (Some char_X)); RSClient; RSClient]
    [mkEnvelope 2 0 (Put char_Y)].

Definition late_put_delivered : wor_Snapshot :=
  mkSnapshot [RSServer (mkServerState (Some char_X)); RSClient; RSClient] [].

(** The value of the first [Put] among a server's inputs, if any. *)
Fixpoint first_put (inputs : list (ActorInput wor_Msg)) : option Value :=
  match inputs with
  | [] => None
  | Deliver _ (Put v) :: _ => Some v
  | _ :: rest => first_put rest
  end.

(** A replay of the checker's actions: [Path sys s path s'] when the
    actions of [path], taken in order from [s], can lead to [s']. *)
Inductive Path {Cfg Msg State : Type} `{A : Actor Cfg Msg State}
    (sys : ActorSystem Cfg Msg) (s : ActorSystemSnapshot Msg State)
    : list (SystemAction Msg) -> ActorSystemSnapshot Msg State -> Prop :=
| path_nil : Path sys s [] s
| path_snoc : forall path a s' s'',
    Path sys s path s' -> In (a, s'') (next_steps sys s') ->
    Path sys s (path ++ [a]) s''.

(** An invariant that rejects any response: the checker must find one. *)
Definition no_response_invariant (_ : ActorSystem wor_Cfg wor_Msg)
    (s : wor_Snapshot) : bool :=
  match wor_response_values s with
  | [] => true
  | _ => false
  end.

(** Two networks with the same [Respond] values, in another order and
    with a repeat and another message. *)
Definition responses_xy : wor_Snapshot :=
  mkSnapshot [] [mkEnvelope 0 1 (Respond char_X); mkEnvelope 0 2 (Respond char_Y)].

Definition responses_yxy : wor_Snapshot :=
  mkSnapshot []
    [mkEnvelope 0 2 (Respond char_Y); mkEnvelope 1 0 (Put char_X);
     mkEnvelope 0 1 (Respond char_X); mkEnvelope 0 2 (Respond char_Y)].

(** Who sends and receives each message in flight: clients send [Put]
    and [Get], servers send [Respond] to clients, no one sends [Internal]. *)
Definition route_inv (sys : ActorSystem wor_Cfg wor_Msg) (s : wor_Snapshot) : Prop :=
  forall e, In e (network s) ->
    match env_msg e with
    | Put _ | Get =>
        exists ids v, nth_error (actors sys) (env_src e) = Some (Client ids v)
    | Respond _ =>
        (exists sc, nth_error (actors sys) (env_src e) = Some (Server sc))
        /\ exists ids v, nth_error (actors sys) (env_dst e) = Some (Client ids v)
    | Internal _ => False
    end.

(** An ASCII decimal digit, and the number a string of them denotes. *)
Definition is_digit (c : char) : bool := (48 <=? c)%N && (c <=? 57)%N.

Definition decimal_value (s : list char) : N :=
  fold_left (fun acc c => (acc * 10 + (c - 48))%N) s 0%N.

(** * Properties *)

(** ** The register wrapper *)

Section RegisterWrapperFacts.
Context {Value ServerMsg ServerCfg ServerState : Type}.
Context `{SA : Actor ServerCfg (RegisterMsg Value ServerMsg) ServerState}.

Lemma client_sends_flat_map (server_ids : list Id) (v : Value) :
  client_sends (ServerMsg := ServerMsg) server_ids v
  = flat_map (fun server_id => [(server_id, Put v); (server_id, Get)]) server_ids.
Proof.
  induction server_ids as [|server_id rest IH]; simpl; [reflexivity|].
  now rewrite IH.
Qed.

(** C2: a client starts in [RegisterState::Client] sending, for each
    server id in order, [Put { value: v }] and then [Get] to that id and
    nothing else; it never reacts to an input. *)
Theorem client_start_and_advance (server_ids : list Id) (v : Value) :
  RegisterCfg_start (SA := SA) (Client server_ids v)
    = mkActorResult RSClient
        (flat_map (fun server_id => [(server_id, Put v); (server_id, Get)])
           server_ids)
  /\ (forall (st : RegisterState ServerState)
             (input : ActorInput (RegisterMsg Value ServerMsg)),
        RegisterCfg_advance (SA := SA) (Client server_ids v) st input = None).
Proof.
  split.
  - unfold RegisterCfg_start, ActorResult_start.
    now rewrite client_sends_flat_map.
  - intros st input; reflexivity.
Qed.

(** C6: the server variant forwards [start] and [advance] to the wrapped
    server actor, wrapping its state and keeping its outputs. *)
Theorem server_forwards (server_cfg : ServerCfg) :
  RegisterCfg_start (SA := SA) (Server (Value := Value) server_cfg)
    = mkActorResult (RSServer (state (start server_cfg)))
                    (outputs (start server_cfg))
  /\ (forall (server_state : ServerState)
             (input : ActorInput (RegisterMsg Value ServerMsg)) r,
        RegisterCfg_advance (Server server_cfg) (RSServer server_state) input
          = Some r
        <-> exists r', advance server_cfg server_state input = Some r'
                       /\ state r = RSServer (state r')
                       /\ outputs r = outputs r').
Proof.
  split; [reflexivity|].
  intros server_state input r; simpl.
  destruct (advance server_cfg server_state input) as [r'|] eqn:Hadv; split.
  - intros H; injection H as <-; exists r'; auto.
  - intros (r0 & Hr0 & Hst & Hout); injection Hr0 as <-.
    destruct r; simpl in *; subst; reflexivity.
  - discriminate.
  - intros (r0 & Hr0 & _); discriminate.
Qed.
End RegisterWrapperFacts.

(** ** The write-once server *)

(** C9: the server starts with no value; a [Put] is accepted exactly when no
    value is stored, and then stores its value; once a value is stored no
    input changes it, after one step or any sequence of inputs. *)
Theorem server_write_once :
  maybe_value (state (ServerCfg_start ServerCfg_)) = None
  /\ (forall st src v,
        (exists r, ServerCfg_advance ServerCfg_ st (Deliver src (Put v)) = Some r)
        <-> maybe_value st = None)
  /\ (forall st src v r,
        ServerCfg_advance ServerCfg_ st (Deliver src (Put v)) = Some r ->
        maybe_value (state r) = Some v)
  /\ (forall st v input r,
        maybe_value st = Some v ->
        ServerCfg_advance ServerCfg_ st input = Some r ->
        maybe_value (state r) = Some v)
  /\ (forall st v inputs,
        maybe_value st = Some v -> maybe_value (run_inputs st inputs) = Some v).
Proof.
  assert (Hstep : forall st v input r,
            maybe_value st = Some v ->
            ServerCfg_advance ServerCfg_ st input = Some r ->
            maybe_value (state r) = Some v).
  { intros st v [src msg] r Hv Hr; simpl in Hr; rewrite Hv in Hr.
    destruct msg; try discriminate.
    injection Hr as <-; exact Hv. }
  split; [reflexivity|].
  split; [|split; [|split; [exact Hstep|]]].
  - intros st src v; simpl; split.
    + intros [r Hr]; destruct (maybe_value st); [discriminate|reflexivity].
    + intros ->; eexists; reflexivity.
  - intros st src v r Hr; simpl in Hr.
    destruct (maybe_value st); [discriminate|].
    injection Hr as <-; reflexivity.
  - intros st v inputs; revert st.
    induction inputs as [|input rest IH]; intros st Hv; simpl; [exact Hv|].
    destruct (ServerCfg_advance ServerCfg_ st input) as [r|] eqn:Hr.
    + apply IH; exact (Hstep _ _ _ _ Hv Hr).
    + apply IH; exact Hv.
Qed.

(** C10: a [Get] is answered exactly when a value is stored, leaving the
    state unchanged and sending one [Respond] with that value back to the
    sender; a [Put] after the value is set, a [Respond] and an [Internal]
    are ignored. *)
Theorem server_get_respond (st : ServerState) (src : Id) :
  ((exists r, ServerCfg_advance ServerCfg_ st (Deliver src Get) = Some r)
     <-> exists v, maybe_value st = Some v)
  /\ (forall v, maybe_value st = Some v ->
        ServerCfg_advance ServerCfg_ st (Deliver src Get)
          = Some (mkActorResult st [(src, Respond v)]))
  /\ (maybe_value st = None -> ServerCfg_advance ServerCfg_ st (Deliver src Get) = None)
  /\ (forall v w, maybe_value st = Some w ->
        ServerCfg_advance ServerCfg_ st (Deliver src (Put v)) = None)
  /\ (forall v, ServerCfg_advance ServerCfg_ st (Deliver src (Respond v)) = None)
  /\ (forall m, ServerCfg_advance ServerCfg_ st (Deliver src (Internal m)) = None).
Proof.
  simpl; repeat split.
  - intros [r Hr]; destruct (maybe_value st) as [v|]; [now exists v|discriminate].
  - intros [v Hv]; rewrite Hv; eexists; reflexivity.
  - intros v Hv; rewrite Hv; reflexivity.
  - intros Hv; rewrite Hv; reflexivity.
  - intros v w Hw; rewrite Hw; reflexivity.
Qed.

(** ** [response_values] *)

Section ResponseValuesFacts.
Context {Value ServerMsg ServerState : Type}.
Variable cmp : Value -> Value -> comparison.
Variable eqb : Value -> Value -> bool.
Hypothesis eqb_spec : forall a b, eqb a b = true <-> a = b.
Hypothesis cmp_eq : forall a b, cmp a b = Eq <-> a = b.
Hypothesis cmp_opp : forall a b, cmp b a = CompOpp (cmp a b).

Let le (a b : Value) : Prop := cmp a b <> Gt.
Let lt (a b : Value) : Prop := cmp a b = Lt.

Lemma insert_sorted_In (x y : Value) (l : list Value) :
  In y (insert_sorted cmp x l) <-> y = x \/ In y l.
Proof.
  induction l as [|z zs IH]; simpl; [firstorder congruence|].
  destruct (cmp x z); simpl; firstorder congruence.
Qed.

Lemma sort_In (y : Value) (l : list Value) : In y (sort cmp l) <-> In y l.
Proof.
  induction l as [|x xs IH]; simpl; [firstorder congruence|].
  rewrite insert_sorted_In, IH; intuition.
Qed.

Lemma insert_sorted_HdRel (y x : Value) (l : list Value) :
  le y x -> HdRel le y l -> HdRel le y (insert_sorted cmp x l).
Proof.
  intros Hyx Hl; destruct l as [|z zs]; simpl; [now constructor|].
  destruct (cmp x z); constructor; auto; now inversion Hl.
Qed.

Lemma insert_sorted_Sorted (x : Value) (l : list Value) :
  Sorted le l -> Sorted le (insert_sorted cmp x l).
Proof.
  induction l as [|z zs IH]; intros Hs; simpl; [now repeat constructor|].
  destruct (cmp x z) eqn:Hxz.
  - constructor; [exact Hs|constructor; unfold le; rewrite Hxz; discriminate].
  - constructor; [exact Hs|constructor; unfold le; rewrite Hxz; discriminate].
  - inversion Hs as [|? ? Hzs Hhd]; subst.
    constructor; [now apply IH|].
    apply insert_sorted_HdRel; [|exact Hhd].
    unfold le; rewrite cmp_opp, Hxz; discriminate.
Qed.

Lemma sort_Sorted (l : list Value) : Sorted le (sort cmp l).
Proof.
  induction l as [|x xs IH]; simpl; [constructor|].
  now apply insert_sorted_Sorted.
Qed.

Lemma dedup_from_head (x : Value) (l : list Value) :
  exists t, dedup_from eqb x l = x :: t.
Proof.
  revert x; induction l as [|y ys IH]; intros x; simpl; [now exists []|].
  destruct (eqb x y); [apply IH|now eexists].
Qed.

Lemma dedup_from_In (x z : Value) (l : list Value) :
  In z (dedup_from eqb x l) <-> z = x \/ In z l.
Proof.
  revert x; induction l as [|y ys IH]; intros x; simpl; [firstorder congruence|].
  destruct (eqb x y) eqn:Hxy.
  - apply eqb_spec in Hxy; subst y; rewrite IH; firstorder congruence.
  - simpl; rewrite IH; firstorder congruence.
Qed.

Lemma dedup_from_Sorted (x : Value) (l : list Value) :
  Sorted le (x :: l) -> Sorted lt (dedup_from eqb x l).
Proof.
  revert x; induction l as [|y ys IH]; intros x Hs; simpl; [now repeat constructor|].
  inversion Hs as [|? ? Hys Hhd]; subst; inversion Hhd as [|? ? Hxy]; subst.
  destruct (eqb x y) eqn:Exy.
  - apply eqb_spec in Exy; subst y; now apply IH.
  - constructor; [now apply IH|].
    destruct (dedup_from_head y ys) as [t ->]; constructor.
    unfold lt; unfold le in Hxy.
    destruct (cmp x y) eqn:Hc; try reflexivity; [|contradiction].
    apply cmp_eq in Hc; apply eqb_spec in Hc; congruence.
Qed.

Lemma dedup_In (z : Value) (l : list Value) : In z (dedup eqb l) <-> In z l.
Proof.
  destruct l as [|x xs]; simpl; [firstorder congruence|].
  rewrite dedup_from_In; firstorder congruence.
Qed.

Lemma dedup_Sorted (l : list Value) : Sorted le l -> Sorted lt (dedup eqb l).
Proof.
  destruct l as [|x xs]; simpl; [constructor|]; apply dedup_from_Sorted.
Qed.

Lemma respond_value_Some (e : Envelope (RegisterMsg Value ServerMsg)) (v : Value) :
  respond_value e = Some v <-> env_msg e = Respond v.
Proof.
  unfold respond_value; destruct (env_msg e); split; congruence.
Qed.

Lemma filter_map_respond_In (v : Value)
    (net : list (Envelope (RegisterMsg Value ServerMsg))) :
  In v (filter_map respond_value net)
  <-> exists e, In e net /\ env_msg e = Respond v.
Proof.
  induction net as [|e es IH]; simpl.
  - split; [tauto|intros (e & [] & _)].
  - destruct (respond_value e) as [w|] eqn:Hr; simpl; rewrite IH; split.
    + intros [<-|(e' & Hin & Hm)]; [|now exists e'; auto].
      exists e; split; [now left|now apply respond_value_Some].
    + intros (e' & [<-|Hin] & Hm); [|right; now exists e'].
      left; apply respond_value_Some in Hm; congruence.
    + intros (e' & Hin & Hm); now exists e'; auto.
    + intros (e' & [<-|Hin] & Hm); [|now exists e'].
      apply respond_value_Some in Hm; congruence.
Qed.

Lemma response_values_In
    (st : ActorSystemSnapshot (RegisterMsg Value ServerMsg)
                              (RegisterState ServerState)) (v : Value) :
  In v (response_values cmp eqb st)
  <-> exists e, In e (network st) /\ env_msg e = Respond v.
Proof.
  unfold response_values; rewrite dedup_In, sort_In.
  apply filter_map_respond_In.
Qed.

Lemma response_values_Sorted
    (st : ActorSystemSnapshot (RegisterMsg Value ServerMsg)
                              (RegisterState ServerState)) :
  Sorted lt (response_values cmp eqb st).
Proof.
  unfold response_values; apply dedup_Sorted, sort_Sorted.
Qed.

(** C3: [response_values] returns exactly the values of the [Respond]
    envelopes of the snapshot's network, ignoring every other message,
    as a strictly increasing list. *)
Theorem response_values_spec
    (st : ActorSystemSnapshot (RegisterMsg Value ServerMsg)
                              (RegisterState ServerState)) :
  (forall v, In v (response_values cmp eqb st)
             <-> exists e, In e (network st) /\ env_msg e = Respond v)
  /\ Sorted (fun a b => cmp a b = Lt) (response_values cmp eqb st).
Proof.
  split; [intros v; apply response_values_In|apply response_values_Sorted].
Qed.
End ResponseValuesFacts.

Lemma char_eqb_spec (a b : char) : char_eqb a b = true <-> a = b.
Proof. apply N.eqb_eq. Qed.

Lemma char_cmp_eq (a b : char) : char_cmp a b = Eq <-> a = b.
Proof. apply N.compare_eq_iff. Qed.

Lemma char_cmp_opp (a b : char) : char_cmp b a = CompOpp (char_cmp a b).
Proof. apply N.compare_antisym. Qed.

Lemma response_values_spec_witness :
  wor_response_values sample_snapshot = [char_X; char_Y]
  /\ Sorted (fun a b => char_cmp a b = Lt) (wor_response_values sample_snapshot).
Proof.
  split; [vm_compute; reflexivity|].
  exact (proj2 (@response_values_spec Value unit ServerState char_cmp char_eqb
                  char_eqb_spec char_cmp_eq char_cmp_opp sample_snapshot)).
Defined.

(** ** Wire encoding of the register messages *)

Section RegisterSerdeFacts.
Context {Value ServerMsg ServerCfg : Type} `{SV : Serde Value} `{SM : Serde ServerMsg}.

(** C5: [deserialize] first decodes the bytes as a server message and,
    when that succeeds, returns it as [Internal]; only when it fails does
    it decode the bytes as the outer [RegisterMsg]. *)
Theorem deserialize_inner_first (cfg : RegisterCfg Value ServerCfg) (bytes : json) :
  (forall msg : ServerMsg, from_slice bytes = Ok msg ->
     RegisterCfg_deserialize cfg bytes = Ok (Internal msg))
  /\ (forall e, from_slice (T := ServerMsg) bytes = Err e ->
        RegisterCfg_deserialize cfg bytes
          = from_slice (T := RegisterMsg Value ServerMsg) bytes).
Proof.
  unfold RegisterCfg_deserialize; split; [intros msg H|intros e H]; now rewrite H.
Qed.

Lemma chars_eqb_refl (s : list char) : chars_eqb s s = true.
Proof.
  unfold chars_eqb; induction s as [|c cs IH]; simpl; [reflexivity|].
  now rewrite N.eqb_refl, IH.
Qed.

(** C4 (amended): encoding then decoding gives the message back when both
    payload types round-trip and the server-message decoder rejects the
    encodings of [Put], [Get] and [Respond]. *)
Theorem register_roundtrip_inner_rejects :
  (forall v : Value, from_json (to_json v) = Some v) ->
  (forall x : ServerMsg, from_json (to_json x) = Some x) ->
  (forall m : RegisterMsg Value ServerMsg,
     (forall x, m <> Internal x) ->
     from_json (T := ServerMsg) (RegisterMsg_to_json m) = None) ->
  forall (cfg : RegisterCfg Value ServerCfg) (m : RegisterMsg Value ServerMsg),
    exists bytes, RegisterCfg_serialize cfg m = Ok bytes
                  /\ RegisterCfg_deserialize cfg bytes = Ok m.
Proof.
  intros Hv Hx Hrej cfg m.
  assert (Houter : forall m, (forall x, m <> Internal x) ->
            RegisterMsg_from_json (RegisterMsg_to_json m) = Some m ->
            exists bytes, RegisterCfg_serialize cfg m = Ok bytes
                          /\ RegisterCfg_deserialize cfg bytes = Ok m).
  { intros m' Hni Hdec; exists (RegisterMsg_to_json m').
    split; [destruct m'; try reflexivity; exfalso; eapply Hni; reflexivity|].
    unfold RegisterCfg_deserialize, from_slice.
    rewrite (Hrej m' Hni); simpl; now rewrite Hdec. }
  destruct m as [v| |v|x].
  1-3: apply Houter; [discriminate|simpl; rewrite ?Hv; reflexivity].
  eexists; split; [reflexivity|].
  unfold RegisterCfg_deserialize, from_slice; simpl; now rewrite Hx.
Qed.
End RegisterSerdeFacts.

Lemma char_roundtrip (v : char) : from_json (to_json v) = Some v.
Proof. reflexivity. Qed.

Lemma unit_roundtrip (x : unit) : from_json (to_json x) = Some x.
Proof. now destruct x. Qed.

Lemma unit_rejects_outer (m : RegisterMsg char unit) :
  (forall x, m <> Internal x) ->
  from_json (T := unit) (RegisterMsg_to_json m) = None.
Proof.
  intros _; destruct m; reflexivity.
Qed.

Lemma register_roundtrip_inner_rejects_witness :
  exists bytes,
    RegisterCfg_serialize (Server ServerCfg_) (Put char_X : wor_Msg) = Ok bytes
    /\ RegisterCfg_deserialize (Server ServerCfg_) bytes = Ok (Put char_X : wor_Msg).
Proof.
  exact (register_roundtrip_inner_rejects char_roundtrip unit_roundtrip
           unit_rejects_outer (Server ServerCfg_) (Put char_X)).
Defined.

(** C4 fails for a server message type whose decoder accepts the encoding of
    an outer message: with [String] server messages, [Get] is encoded as the
    JSON string ["Get"], which decodes back as [Internal("Get")]. *)
Lemma register_roundtrip_counterexample :
  (forall x : RustString, from_json (to_json x) = Some x)
  /\ exists bytes,
       RegisterCfg_serialize (Server ServerCfg_) (Get : RegisterMsg char RustString)
         = Ok bytes
       /\ RegisterCfg_deserialize (Server ServerCfg_) bytes
            = Ok (Internal (RString (str "Get")))
       /\ RegisterCfg_deserialize (Server ServerCfg_) bytes
            <> Ok (Get : RegisterMsg char RustString).
Proof.
  split; [intros [cs]; reflexivity|].
  eexists; split; [reflexivity|split; [reflexivity|discriminate]].
Qed.

(** ** The [check] subcommand *)

Lemma u8_digits_le (acc : N) (s : list char) (n : N) :
  (acc <= 255)%N -> u8_digits acc s = Some n -> (n <= 255)%N.
Proof.
  revert acc; induction s as [|c cs IH]; intros acc Hacc H; simpl in H.
  - injection H as <-; exact Hacc.
  - destruct ((48 <=? c)%N && (c <=? 57)%N); [|discriminate].
    destruct (acc * 10 + (c - 48) <=? 255)%N eqn:Hle; [|discriminate].
    apply N.leb_le in Hle; exact (IH _ Hle H).
Qed.

Lemma u8_from_str_le (s : list char) (n : N) :
  u8_from_str s = Some n -> (n <= 255)%N.
Proof.
  unfold u8_from_str; destruct s as [|c rest]; [discriminate|].
  destruct (c =? 43)%N.
  - destruct rest; [discriminate|]; apply u8_digits_le; lia.
  - apply u8_digits_le; lia.
Qed.

Lemma client_value_small (i : nat) :
  (i < 26)%nat -> client_value i = (65 + N.of_nat i)%N.
Proof.
  intros Hi; unfold client_value, u8_add; apply N.mod_small; lia.
Qed.

Lemma seq_values_NoDup (start k : nat) :
  NoDup (map (fun i => (65 + N.of_nat i)%N) (seq start k)).
Proof.
  revert start; induction k as [|k IH]; intros start; [constructor|].
  cbn [seq map]; constructor; [|apply IH].
  rewrite in_map_iff; intros (i & Heq & Hin); apply in_seq in Hin.
  apply N.add_cancel_l, Nat2N.inj in Heq; lia.
Qed.

(** C8 (amended): when the [client_count] argument parses as a [u8] (a
    number up to 255), the count used is the minimum of it and 26 and the
    clients propose ['A'], ['B'], ... in order, one distinct value each. *)
Theorem check_command_clamps (arg : list char) (requested : N) :
  u8_from_str arg = Some requested ->
  (requested <= 255)%N
  /\ exists sys,
       check_command arg = Some (N.min 26 requested, sys)
       /\ actors sys
            = Server ServerCfg_
              :: map (fun i => Client [0] (65 + N.of_nat i)%N)
                   (seq 0 (N.to_nat (N.min 26 requested)))
       /\ NoDup (map (fun i => (65 + N.of_nat i)%N)
                   (seq 0 (N.to_nat (N.min 26 requested))))
       /\ init_network sys = []
       /\ lossy_network sys = LossyYes.
Proof.
  intros Hparse; split; [exact (u8_from_str_le _ Hparse)|].
  unfold check_command; rewrite Hparse.
  eexists; split; [reflexivity|]; simpl.
  split; [|split; [apply seq_values_NoDup|split; reflexivity]].
  f_equal; unfold check_clients; apply map_ext_in.
  intros i Hi; apply in_seq in Hi.
  rewrite client_value_small; [reflexivity|lia].
Qed.

Lemma check_command_clamps_witness :
  u8_from_str (str "30") = Some 30%N
  /\ exists sys,
       check_command (str "30") = Some (26%N, sys)
       /\ actors sys
            = Server ServerCfg_
              :: map (fun i => Client [0] (65 + N.of_nat i)%N) (seq 0 26).
Proof.
  split; [reflexivity|].
  destruct (@check_command_clamps (str "30") 30%N eq_refl)
    as (_ & sys & Hsys & Hact & _).
  exists sys; split; [exact Hsys|exact Hact].
Defined.

(** C8 fails for a request above 255: ["300"] does not parse as a [u8], so
    [.expect("client_count")] panics instead of clamping to 26. *)
Lemma check_command_counterexample :
  u8_from_str (str "300") = None /\ check_command (str "300") = None.
Proof. split; reflexivity. Qed.

(** ** List updates *)

Lemma In_remove_nth {X : Type} (i : nat) (x : X) (l : list X) :
  In x (remove_nth i l) -> In x l.
Proof.
  revert i; induction l as [|y ys IH]; intros [|i]; simpl; try tauto.
  intros [H|H]; [now left|right; exact (IH i H)].
Qed.

Lemma nth_error_replace_other {X : Type} (i k : nat) (x : X) (l : list X) :
  i <> k -> nth_error (replace_nth i x l) k = nth_error l k.
Proof.
  revert i k; induction l as [|y ys IH]; intros [|i] [|k] Hik; simpl;
    try reflexivity; try congruence.
  apply IH; congruence.
Qed.

Lemma replace_nth_same {X : Type} (i : nat) (x : X) (l : list X) :
  nth_error l i = Some x -> replace_nth i x l = l.
Proof.
  revert i; induction l as [|y ys IH]; intros [|i] H; simpl in *;
    try discriminate; [congruence|now rewrite IH].
Qed.

Lemma Forall2_nth_error {X Y : Type} (R : X -> Y -> Prop) l1 l2 i a b :
  Forall2 R l1 l2 -> nth_error l1 i = Some a -> nth_error l2 i = Some b -> R a b.
Proof.
  intros HF; revert i; induction HF as [|x y xs ys Hxy HF IH]; intros [|i] Ha Hb;
    simpl in *; try discriminate.
  - congruence.
  - exact (IH i Ha Hb).
Qed.

Lemma Forall2_nth_error_r {X Y : Type} (R : X -> Y -> Prop) l1 l2 i b :
  Forall2 R l1 l2 -> nth_error l2 i = Some b -> exists a, nth_error l1 i = Some a.
Proof.
  intros HF; revert i; induction HF as [|x y xs ys Hxy HF IH]; intros [|i] Hb;
    simpl in *; try discriminate.
  - now exists x.
  - exact (IH i Hb).
Qed.

Lemma Forall2_replace_nth {X Y : Type} (R : X -> Y -> Prop) l1 l2 i a y :
  Forall2 R l1 l2 -> nth_error l1 i = Some a -> R a y ->
  Forall2 R l1 (replace_nth i y l2).
Proof.
  intros HF; revert i; induction HF as [|x y' xs ys Hxy HF IH]; intros [|i] Ha Hy;
    simpl in *; try discriminate.
  - injection Ha as ->; constructor; assumption.
  - constructor; [assumption|exact (IH i Ha Hy)].
Qed.

(** ** Servers of the system *)

Lemma server_count_zero (cfgs : list wor_Cfg) (j : nat) (cfg : wor_Cfg) :
  server_count cfgs = 0 -> nth_error cfgs j = Some cfg -> is_server cfg = false.
Proof.
  revert j; induction cfgs as [|c cs IH]; intros [|j] H0 Hj; simpl in *;
    try discriminate.
  - injection Hj as <-; destruct (is_server c); [discriminate|reflexivity].
  - destruct (is_server c); [discriminate|exact (IH j H0 Hj)].
Qed.

Lemma server_unique (cfgs : list wor_Cfg) (j1 j2 : nat) (c1 c2 : wor_Cfg) :
  server_count cfgs = 1 ->
  nth_error cfgs j1 = Some c1 -> is_server c1 = true ->
  nth_error cfgs j2 = Some c2 -> is_server c2 = true -> j1 = j2.
Proof.
  revert j1 j2; induction cfgs as [|c cs IH]; intros j1 j2 H1 Hj1 Hs1 Hj2 Hs2;
    [destruct j1; discriminate|].
  simpl in H1; destruct (is_server c) eqn:Hc.
  - destruct j1 as [|j1], j2 as [|j2]; simpl in *; try reflexivity.
    + rewrite (server_count_zero cs j2) in Hs2; [discriminate|lia|exact Hj2].
    + rewrite (server_count_zero cs j1) in Hs1; [discriminate|lia|exact Hj1].
    + rewrite (server_count_zero cs j1) in Hs1; [discriminate|lia|exact Hj1].
  - destruct j1 as [|j1], j2 as [|j2]; simpl in *.
    + reflexivity.
    + injection Hj1 as <-; congruence.
    + injection Hj2 as <-; congruence.
    + f_equal; exact (IH j1 j2 H1 Hj1 Hs1 Hj2 Hs2).
Qed.

(** ** The invariant holds initially and is preserved by every step *)

Lemma client_sends_no_respond (i : Id) (ids : list Id) (v : Value) e w :
  In e (envelopes_of i (client_sends (ServerMsg := unit) ids v)) ->
  env_msg e <> Respond w.
Proof.
  induction ids as [|id rest IH]; simpl; [tauto|].
  intros [<-|[<-|H]]; [discriminate|discriminate|exact (IH H)].
Qed.

Lemma start_all_inv (i : Id) (cfgs : list wor_Cfg) states envs :
  start_all (A := RegisterCfg_Actor) i cfgs = (states, envs) ->
  Forall2 state_fits cfgs states
  /\ forall e w, In e envs -> env_msg e <> Respond w.
Proof.
  revert i states envs; induction cfgs as [|cfg rest IH]; intros i states envs H.
  - simpl in H; injection H as <- <-; split; [constructor|intros e w []].
  - simpl in H.
    destruct (start_all (A := RegisterCfg_Actor) (S i) rest) as [states' envs'] eqn:Hr.
    injection H as <- <-.
    destruct (IH _ _ _ Hr) as [Hfit Hno].
    split.
    + constructor; [destruct cfg; exact I|exact Hfit].
    + intros e w Hin; apply in_app_or in Hin; destruct Hin as [Hin|Hin].
      * destruct cfg as [ids v|sc]; simpl in Hin.
        -- exact (client_sends_no_respond _ _ _ _ Hin).
        -- destruct Hin.
      * exact (Hno e w Hin).
Qed.

Lemma wor_inv_init (sys : ActorSystem wor_Cfg wor_Msg) :
  init_network sys = [] -> wor_inv sys (init_snapshot sys).
Proof.
  intros Hinit; unfold init_snapshot.
  match goal with
  | |- context [@start_all ?C ?M ?S ?I ?i ?c] =>
      destruct (@start_all C M S I i c) as [states envs] eqn:H
  end.
  destruct (start_all_inv _ _ H) as [Hfit Hno].
  split; [exact Hfit|].
  simpl; rewrite Hinit; simpl; intros e v Hin Hm.
  exfalso; exact (Hno e v Hin Hm).
Qed.

Lemma steps_from_cases (sys : ActorSystem wor_Cfg wor_Msg) (s : wor_Snapshot)
    (i : nat) (pending : list (Envelope wor_Msg)) a s' :
  In (a, s') (steps_from (A := RegisterCfg_Actor) sys s i pending) ->
  exists j e, In e pending
              /\ (s' = drop s j \/ deliver (A := RegisterCfg_Actor) sys s j e = Some s').
Proof.
  revert i; induction pending as [|e rest IH]; intros i H; simpl in H; [destruct H|].
  apply in_app_or in H; destruct H as [H|H].
  - match type of H with
    | context [match ?l with LossyYes => _ | LossyNo => _ end] => destruct l
    end; [|exact (False_ind _ H)].
    destruct H as [H|[]]; injection H as _ <-.
    exists i, e; split; [now left|now left].
  - apply in_app_or in H; destruct H as [H|H].
    + match type of H with
      | context [match ?d with Some _ => _ | None => _ end] =>
          destruct d as [s0|] eqn:Hd
      end; [|exact (False_ind _ H)].
      destruct H as [H|[]]; injection H as _ <-.
      exists i, e; split; [now left|now right].
    + destruct (IH (S i) H) as (j & e' & Hin & Hcase).
      exists j, e'; split; [now right|exact Hcase].
Qed.

Lemma wor_advance_some (cfg : wor_Cfg) (st : wor_State) (src : Id) (msg : wor_Msg) r :
  advance cfg st (Deliver src msg) = Some r ->
  exists ss, st = RSServer ss
    /\ ((exists v, msg = Put v /\ maybe_value ss = None
                   /\ state r = RSServer (mkServerState (Some v)) /\ outputs r = [])
        \/ (exists v, msg = Get /\ maybe_value ss = Some v
                      /\ state r = RSServer ss /\ outputs r = [(src, Respond v)])).
Proof.
  destruct cfg as [ids dv|[]]; [discriminate|].
  destruct st as [|ss]; [discriminate|].
  simpl; intros H; exists ss; split; [reflexivity|].
  destruct msg as [v| |v|m]; destruct (maybe_value ss) as [w|] eqn:Hv;
    try discriminate; injection H as <-.
  - left; exists v; auto.
  - right; exists w; auto.
Qed.

(** Case analysis on the first [option] scrutinee found in [H]. *)
Ltac destruct_option_in H x E :=
  match type of H with
  | context [match ?t with Some _ => _ | None => _ end] =>
      destruct t as [x|] eqn:E
  end.

Lemma wor_inv_step (sys : ActorSystem wor_Cfg wor_Msg) (s s' : wor_Snapshot) :
  wor_inv sys s -> Step (A := RegisterCfg_Actor) sys s s' -> wor_inv sys s'.
Proof.
  intros [Hfit Hresp] [a Hin].
  unfold next_steps in Hin; destruct (steps_from_cases _ _ _ _ _ _ Hin) as (j & e & He & [-> | Hd]).
  - split; [exact Hfit|]; simpl.
    intros e' v Hin' Hm; exact (Hresp e' v ltac:(eapply In_remove_nth; exact Hin') Hm).
  - unfold deliver in Hd.
    destruct_option_in Hd cfg Hc; [|discriminate].
    destruct_option_in Hd st Hs; [|discriminate].
    assert (Hfc : state_fits cfg st) by (eapply Forall2_nth_error; eauto).
    destruct_option_in Hd r Ha; injection Hd as <-.
    + destruct (wor_advance_some _ _ _ _ Ha)
        as (ss & -> & [(v & Hm & Hnone & Hst & Hout)|(v & Hm & Hsome & Hst & Hout)]).
      * destruct r as [rst routs]; simpl in Hst, Hout; subst rst routs.
        split; simpl.
        -- eapply Forall2_replace_nth; [exact Hfit|exact Hc|].
           destruct cfg; [destruct Hfc|exact I].
        -- intros e' w Hin' Hm'; rewrite app_nil_r in Hin'.
           destruct (Hresp e' w ltac:(eapply In_remove_nth; exact Hin') Hm') as [k Hk].
           exists k; rewrite nth_error_replace_other; [exact Hk|].
           intros Hjk; subst k.
           assert (Heq : Some (RSServer ss)
                         = Some (RSServer (mkServerState (Some w)))).
           { transitivity (nth_error (actor_states s) (env_dst e));
               [symmetry; exact Hs|exact Hk]. }
           injection Heq as Heq; rewrite Heq in Hnone; discriminate.
      * destruct r as [rst routs]; simpl in Hst, Hout; subst rst routs.
        simpl; erewrite replace_nth_same by exact Hs; split; [exact Hfit|]; simpl.
        intros e' w Hin' Hm'; apply in_app_or in Hin'.
        destruct Hin' as [Hin'|[<-|[]]].
        -- exact (Hresp e' w ltac:(eapply In_remove_nth; exact Hin') Hm').
        -- simpl in Hm'; injection Hm' as <-.
           exists (env_dst e).
           destruct ss as [mv]; simpl in Hsome; subst mv; exact Hs.
    + split; [exact Hfit|]; simpl.
      intros e' v Hin' Hm; exact (Hresp e' v ltac:(eapply In_remove_nth; exact Hin') Hm).
Qed.

Lemma wor_inv_reachable (sys : ActorSystem wor_Cfg wor_Msg) (s : wor_Snapshot) :
  init_network sys = [] -> Reachable (A := RegisterCfg_Actor) sys s -> wor_inv sys s.
Proof.
  intros Hinit Hr; induction Hr as [|s s' Hr IH Hstep].
  - apply wor_inv_init; exact Hinit.
  - eapply wor_inv_step; eauto.
Qed.

Lemma wor_inv_one_value (sys : ActorSystem wor_Cfg wor_Msg) (s : wor_Snapshot)
    (v1 v2 : Value) :
  server_count (actors sys) = 1 -> wor_inv sys s ->
  (exists e, In e (network s) /\ env_msg e = Respond v1) ->
  (exists e, In e (network s) /\ env_msg e = Respond v2) ->
  v1 = v2.
Proof.
  intros Hone [Hfit Hresp] (e1 & H1 & M1) (e2 & H2 & M2).
  destruct (Hresp e1 v1 H1 M1) as [j1 Hj1].
  destruct (Hresp e2 v2 H2 M2) as [j2 Hj2].
  assert (Hc1 : exists c1, nth_error (actors sys) j1 = Some c1)
    by (eapply Forall2_nth_error_r; eauto).
  assert (Hc2 : exists c2, nth_error (actors sys) j2 = Some c2)
    by (eapply Forall2_nth_error_r; eauto).
  destruct Hc1 as [c1 Hc1], Hc2 as [c2 Hc2].
  assert (F1 : state_fits c1 (RSServer (mkServerState (Some v1))))
    by (eapply Forall2_nth_error; eauto).
  assert (F2 : state_fits c2 (RSServer (mkServerState (Some v2))))
    by (eapply Forall2_nth_error; eauto).
  assert (S1 : is_server c1 = true) by (destruct c1; [destruct F1|reflexivity]).
  assert (S2 : is_server c2 = true) by (destruct c2; [destruct F2|reflexivity]).
  assert (j1 = j2) by (eapply server_unique; eauto); subst j2.
  assert (Heq : Some (RSServer (mkServerState (Some v1)))
                = Some (RSServer (mkServerState (Some v2)))).
  { transitivity (nth_error (actor_states s) j1); [symmetry; exact Hj1|exact Hj2]. }
  congruence.
Qed.

(** C1: in every snapshot reachable from the initial snapshot of a system
    with one write-once server, any number of clients and an empty initial
    network, the distinct [Respond] values in flight are none or one. The
    clients' values and server ids are arbitrary, and the network may be
    lossy or not. *)
Theorem write_once_single_response (sys : ActorSystem wor_Cfg wor_Msg)
    (s : wor_Snapshot) :
  server_count (actors sys) = 1 ->
  init_network sys = [] ->
  Reachable (A := RegisterCfg_Actor) sys s ->
  wor_response_values s = [] \/ exists v, wor_response_values s = [v].
Proof.
  intros Hone Hinit Hr.
  assert (Hinv : wor_inv sys s) by (eapply wor_inv_reachable; eauto).
  remember (wor_response_values s) as l eqn:Hl.
  assert (Hsort : Sorted (fun a b => char_cmp a b = Lt) l).
  { subst l; exact (@response_values_Sorted Value unit ServerState char_cmp char_eqb
                      char_eqb_spec char_cmp_eq char_cmp_opp s). }
  assert (Hin : forall v, In v l ->
                exists e, In e (network s) /\ env_msg e = Respond v).
  { intros v; subst l; exact (proj1 (@response_values_In Value unit ServerState
                      char_cmp char_eqb char_eqb_spec char_cmp_eq s v)). }
  clear Hl.
  destruct l as [|a [|b rest]].
  - now left.
  - right; now exists a.
  - exfalso.
    inversion Hsort as [|? ? _ Hhd]; subst; inversion Hhd as [|? ? Hab]; subst.
    assert (a = b) by (eapply wor_inv_one_value; [exact Hone|exact Hinv| |];
                       apply Hin; simpl; auto).
    subst b; unfold char_cmp in Hab; rewrite N.compare_refl in Hab; discriminate.
Qed.

Lemma write_once_single_response_witness :
  server_count (actors can_model_wor_system) = 1
  /\ init_network can_model_wor_system = []
  /\ (wor_response_values (init_snapshot can_model_wor_system) = []
      \/ exists v, wor_response_values (init_snapshot can_model_wor_system) = [v]).
Proof.
  split; [reflexivity|split; [reflexivity|]].
  apply (@write_once_single_response can_model_wor_system); [reflexivity|reflexivity|].
  apply reach_init.
Defined.

(** ** The [can_model_wor] scenario *)

(** On the network of sections 3 and 4.2 of the spec, where a delivered
    envelope leaves an ordered network, the check of [can_model_wor] also
    passes but visits 56 distinct snapshots. *)
Remark can_model_wor_spec_network_56 :
  fst can_model_wor_check = Pass /\ List.length (snd can_model_wor_check) = 56.
Proof. vm_compute; split; reflexivity. Qed.


(** The same 144 snapshots are reached by the exploration that does not
    check the invariant. *)
Remark can_model_wor_redelivering_144 :
  List.length can_model_wor_redelivering_sources = 144.
Proof. vm_compute; reflexivity. Qed.

(** * Further properties of the register system *)

(** ** Every value in flight or held by a server is a client's value *)

Lemma client_sends_values (i : Id) (ids : list Id) (v : Value) e w :
  In e (envelopes_of i (client_sends (ServerMsg := unit) ids v)) ->
  env_msg e = Put w \/ env_msg e = Respond w -> w = v.
Proof.
  induction ids as [|id rest IH]; simpl; [tauto|].
  intros [<-|[<-|H]] Hm; simpl in Hm.
  - destruct Hm as [Hm|Hm]; congruence.
  - destruct Hm as [Hm|Hm]; discriminate.
  - exact (IH H Hm).
Qed.

Lemma start_all_values (i : Id) (cfgs : list wor_Cfg) states envs :
  start_all (A := RegisterCfg_Actor) i cfgs = (states, envs) ->
  (forall e v, In e envs -> env_msg e = Put v \/ env_msg e = Respond v ->
     In v (client_values cfgs))
  /\ (forall j st, nth_error states j = Some st ->
        st = RSClient \/ st = RSServer (mkServerState None)).
Proof.
  revert i states envs; induction cfgs as [|cfg rest IH]; intros i states envs H.
  - simpl in H; injection H as <- <-.
    split; [intros e v []|intros [|j] st Hj; discriminate].
  - simpl in H.
    destruct (start_all (A := RegisterCfg_Actor) (S i) rest) as [states' envs'] eqn:Hr.
    injection H as <- <-.
    destruct (IH _ _ _ Hr) as [Hv Hst].
    split.
    + intros e v Hin Hm; apply in_app_or in Hin.
      destruct cfg as [ids dv|sc]; simpl.
      * destruct Hin as [Hin|Hin].
        -- left; symmetry; eapply client_sends_values; [exact Hin|exact Hm].
        -- right; exact (Hv e v Hin Hm).
      * destruct Hin as [Hin|Hin]; [destruct Hin|exact (Hv e v Hin Hm)].
    + intros [|j] st Hj; simpl in Hj; [|exact (Hst j st Hj)].
      injection Hj as <-; destruct cfg; [now left|now right].
Qed.

Lemma values_inv_init (sys : ActorSystem wor_Cfg wor_Msg) :
  init_network sys = [] -> values_inv sys (init_snapshot sys).
Proof.
  intros Hinit; unfold init_snapshot.
  match goal with
  | |- context [@start_all ?C ?M ?S ?I ?i ?c] =>
      destruct (@start_all C M S I i c) as [states envs] eqn:H
  end.
  destruct (start_all_inv _ _ H) as [Hfit _].
  destruct (start_all_values _ _ H) as [Hv Hst].
  split; [exact Hfit|split]; simpl; rewrite ?Hinit; simpl.
  - exact Hv.
  - intros j v Hj; destruct (Hst j _ Hj) as [Hc|Hc]; discriminate.
Qed.

Lemma nth_error_replace_same {X : Type} (i : nat) (x y : X) (l : list X) :
  nth_error l i = Some y -> nth_error (replace_nth i x l) i = Some x.
Proof.
  revert i; induction l as [|z zs IH]; intros [|i] H; simpl in *;
    try discriminate; [reflexivity|exact (IH i H)].
Qed.

Lemma values_inv_step (sys : ActorSystem wor_Cfg wor_Msg) (s s' : wor_Snapshot) :
  values_inv sys s -> Step (A := RegisterCfg_Actor) sys s s' -> values_inv sys s'.
Proof.
  intros (Hfit & Hmsg & Hsrv) [a Hin].
  unfold next_steps in Hin; destruct (steps_from_cases _ _ _ _ _ _ Hin) as (j & e & He & [-> | Hd]).
  - split; [exact Hfit|split; [|exact Hsrv]]; simpl.
    intros e' v Hin' Hm; exact (Hmsg e' v ltac:(eapply In_remove_nth; exact Hin') Hm).
  - unfold deliver in Hd.
    destruct_option_in Hd cfg Hc; [|discriminate].
    destruct_option_in Hd st Hs; [|discriminate].
    assert (Hfc : state_fits cfg st) by (eapply Forall2_nth_error; eauto).
    destruct_option_in Hd r Ha; injection Hd as <-.
    + destruct (wor_advance_some _ _ _ _ Ha)
        as (ss & -> & [(v & Hm & Hnone & Hst & Hout)|(v & Hm & Hsome & Hst & Hout)]).
      * destruct r as [rst routs]; simpl in Hst, Hout; subst rst routs.
        assert (Hv : In v (client_values (actors sys)))
          by (apply (Hmsg e v He); left; exact Hm).
        split; [|split]; simpl.
        -- eapply Forall2_replace_nth; [exact Hfit|exact Hc|].
           destruct cfg; [destruct Hfc|exact I].
        -- intros e' w Hin' Hm'; rewrite app_nil_r in Hin'.
           exact (Hmsg e' w ltac:(eapply In_remove_nth; exact Hin') Hm').
        -- intros k w Hk.
           destruct (Nat.eq_dec k (env_dst e)) as [->|Hne].
           ++ assert (Heq : Some (RSServer (mkServerState (Some v)))
                            = Some (RSServer (mkServerState (Some w)))).
              { transitivity (nth_error (replace_nth (env_dst e)
                   (RSServer (mkServerState (Some v))) (actor_states s)) (env_dst e));
                  [symmetry; eapply nth_error_replace_same; exact Hs|exact Hk]. }
              injection Heq as <-; exact Hv.
           ++ rewrite nth_error_replace_other in Hk;
                [exact (Hsrv k w Hk)|intros Heq; apply Hne; symmetry; exact Heq].
      * destruct r as [rst routs]; simpl in Hst, Hout; subst rst routs.
        simpl; erewrite replace_nth_same by exact Hs.
        split; [exact Hfit|split; [|exact Hsrv]]; simpl.
        intros e' w Hin' Hm'; apply in_app_or in Hin'.
        destruct Hin' as [Hin'|[<-|[]]].
        -- exact (Hmsg e' w ltac:(eapply In_remove_nth; exact Hin') Hm').
        -- simpl in Hm'; destruct Hm' as [Hm'|Hm']; [discriminate|].
           injection Hm' as <-.
           apply (Hsrv (env_dst e)).
           destruct ss as [mv]; simpl in Hsome; subst mv; exact Hs.
    + split; [exact Hfit|split; [|exact Hsrv]]; simpl.
      intros e' v Hin' Hm; exact (Hmsg e' v ltac:(eapply In_remove_nth; exact Hin') Hm).
Qed.

Lemma values_inv_reachable (sys : ActorSystem wor_Cfg wor_Msg) (s : wor_Snapshot) :
  init_network sys = [] -> Reachable (A := RegisterCfg_Actor) sys s -> values_inv sys s.
Proof.
  intros Hinit Hr; induction Hr as [|s s' Hr IH Hstep].
  - apply values_inv_init; exact Hinit.
  - eapply values_inv_step; eauto.
Qed.

(** X1: in every reachable snapshot of a register system whose network
    starts empty, the value of every [Put] or [Respond] in flight and every
    value a server holds is the [desired_value] of one of its clients. *)
Theorem reachable_values_from_clients (sys : ActorSystem wor_Cfg wor_Msg)
    (s : wor_Snapshot) :
  init_network sys = [] -> Reachable (A := RegisterCfg_Actor) sys s ->
  (forall e v, In e (network s) -> env_msg e = Put v \/ env_msg e = Respond v ->
     In v (client_values (actors sys)))
  /\ (forall j v, nth_error (actor_states s) j
                  = Some (RSServer (mkServerState (Some v))) ->
        In v (client_values (actors sys))).
Proof.
  intros Hinit Hr.
  destruct (values_inv_reachable Hinit Hr) as (_ & Hmsg & Hsrv).
  split; [exact Hmsg|exact Hsrv].
Qed.

Lemma reachable_values_from_clients_witness :
  init_network can_model_wor_system = []
  /\ (forall e v, In e (network (init_snapshot can_model_wor_system)) ->
        env_msg e = Put v \/ env_msg e = Respond v ->
        In v (client_values (actors can_model_wor_system))).
Proof.
  split; [reflexivity|].
  apply (@reachable_values_from_clients can_model_wor_system); [reflexivity|].
  apply reach_init.
Defined.

(** X2: a step of a register system never changes a value a server
    holds: a [Put] to a full register is ignored and a [Get] keeps it. *)
Theorem step_keeps_server_value (sys : ActorSystem wor_Cfg wor_Msg)
    (s s' : wor_Snapshot) (j : nat) (v : Value) :
  Step (A := RegisterCfg_Actor) sys s s' ->
  nth_error (actor_states s) j = Some (RSServer (mkServerState (Some v))) ->
  nth_error (actor_states s') j = Some (RSServer (mkServerState (Some v))).
Proof.
  intros [a Hin] Hj.
  unfold next_steps in Hin.
  destruct (steps_from_cases _ _ _ _ _ _ Hin) as (k & e & He & [-> | Hd]);
    [exact Hj|].
  unfold deliver in Hd.
  destruct_option_in Hd cfg Hc; [|discriminate].
  destruct_option_in Hd st Hs; [|discriminate].
  destruct_option_in Hd r Ha; injection Hd as <-; [|exact Hj].
  simpl; destruct (Nat.eq_dec (env_dst e) j) as [<-|Hne].
  - assert (Hst0 : Some st = Some (RSServer (mkServerState (Some v)))).
    { transitivity (nth_error (actor_states s) (env_dst e));
        [symmetry; exact Hs|exact Hj]. }
    injection Hst0 as ->.
    destruct (wor_advance_some _ _ _ _ Ha)
      as (ss & Hss & [(w & Hm & Hnone & Hst & Hout)|(w & Hm & Hsome & Hst & Hout)]);
      injection Hss as <-; [discriminate|].
    destruct r as [rst routs]; simpl in Hst; subst rst.
    eapply nth_error_replace_same; exact Hs.
  - rewrite nth_error_replace_other by exact Hne; exact Hj.
Qed.

Lemma step_keeps_server_value_witness :
  Step (A := RegisterCfg_Actor) can_model_wor_system late_put_snapshot late_put_delivered
  /\ nth_error (actor_states late_put_delivered) 0
     = Some (RSServer (mkServerState (Some char_X))).
Proof.
  assert (Hstep : Step (A := RegisterCfg_Actor) can_model_wor_system
                    late_put_snapshot late_put_delivered).
  { exists (ActDeliver (mkEnvelope 2 0 (Put char_Y))); vm_compute; auto. }
  split; [exact Hstep|].
  apply (@step_keeps_server_value can_model_wor_system late_put_snapshot
           late_put_delivered 0 char_X Hstep).
  reflexivity.
Defined.

Lemma run_inputs_keeps (st : ServerState) (v : Value) (inputs : list (ActorInput wor_Msg)) :
  maybe_value st = Some v -> maybe_value (run_inputs st inputs) = Some v.
Proof.
  revert st; induction inputs as [|[src m] rest IH]; intros st Hst; simpl; [exact Hst|].
  destruct st as [mv]; simpl in Hst; subst mv.
  destruct m; simpl; apply IH; reflexivity.
Qed.

Lemma run_inputs_empty (st : ServerState) (inputs : list (ActorInput wor_Msg)) :
  maybe_value st = None -> maybe_value (run_inputs st inputs) = first_put inputs.
Proof.
  revert st; induction inputs as [|[src m] rest IH]; intros st Hst; simpl; [exact Hst|].
  destruct st as [mv]; simpl in Hst; subst mv.
  destruct m as [v| |v|x]; simpl.
  - apply run_inputs_keeps; reflexivity.
  - apply IH; reflexivity.
  - apply IH; reflexivity.
  - apply IH; reflexivity.
Qed.

(** X3: started afresh, the server of [examples/wor.rs] holds, after any
    sequence of delivered inputs, the value of the first [Put] among them,
    and nothing if there was none. *)
Theorem run_inputs_first_put (inputs : list (ActorInput wor_Msg)) :
  maybe_value (run_inputs (state (ServerCfg_start ServerCfg_)) inputs)
  = first_put inputs.
Proof. apply run_inputs_empty; reflexivity. Qed.

(** ** The invariant of the [check] subcommand *)

Lemma wor_response_values_le_one (sys : ActorSystem wor_Cfg wor_Msg)
    (s : wor_Snapshot) :
  server_count (actors sys) = 1 ->
  init_network sys = [] ->
  Reachable (A := RegisterCfg_Actor) sys s ->
  wor_response_values s = []
  \/ exists v, wor_response_values s = [v]
               /\ exists e, In e (network s) /\ env_msg e = Respond v.
Proof.
  intros Hone Hinit Hr.
  assert (Hinv : wor_inv sys s) by (eapply wor_inv_reachable; eauto).
  remember (wor_response_values s) as l eqn:Hl.
  assert (Hsort : Sorted (fun a b => char_cmp a b = Lt) l).
  { subst l; exact (@response_values_Sorted Value unit ServerState char_cmp char_eqb
                      char_eqb_spec char_cmp_eq char_cmp_opp s). }
  assert (Hin : forall v, In v l ->
                exists e, In e (network s) /\ env_msg e = Respond v).
  { intros v; subst l; exact (proj1 (@response_values_In Value unit ServerState
                      char_cmp char_eqb char_eqb_spec char_cmp_eq s v)). }
  clear Hl.
  destruct l as [|a [|b rest]].
  - now left.
  - right; exists a; split; [reflexivity|apply Hin; simpl; auto].
  - exfalso.
    inversion Hsort as [|? ? _ Hhd]; subst; inversion Hhd as [|? ? Hab]; subst.
    assert (a = b) by (eapply wor_inv_one_value; [exact Hone|exact Hinv| |];
                       apply Hin; simpl; auto).
    subst b; unfold char_cmp in Hab; rewrite N.compare_refl in Hab; discriminate.
Qed.

Lemma check_clients_servers (l : list nat) :
  server_count (map (fun i => Client [0] (client_value i)) l) = 0.
Proof. induction l as [|i l IH]; simpl; [reflexivity|exact IH]. Qed.

Lemma check_clients_values (l : list nat) :
  client_values (map (fun i => Client [0] (client_value i)) l) = map client_value l.
Proof. induction l as [|i l IH]; simpl; [reflexivity|now rewrite IH]. Qed.

(** X4: in every reachable snapshot of the system the [check] subcommand
    builds, its invariant holds: at most one value is in [Respond]s, and
    that value is between ['A'] and the last client's letter. *)
Theorem main_check_invariant_holds (arg : list char) (n : N)
    (sys : ActorSystem wor_Cfg wor_Msg) (s : wor_Snapshot) :
  check_command arg = Some (n, sys) ->
  Reachable (A := RegisterCfg_Actor) sys s ->
  main_check_invariant n sys s = true.
Proof.
  intros Hcmd Hr.
  unfold check_command in Hcmd.
  destruct (u8_from_str arg) as [req|] eqn:Hp; [|discriminate].
  injection Hcmd as <- <-.
  assert (Hn : (N.min 26 req <= 26)%N) by lia.
  set (n := N.min 26 req) in *.
  assert (Hone : server_count (Server ServerCfg_ :: check_clients n) = 1).
  { simpl; unfold check_clients; now rewrite check_clients_servers. }
  unfold main_check_invariant.
  destruct (wor_response_values_le_one
              (sys := mkActorSystem (Server ServerCfg_ :: check_clients n) [] LossyYes)
              Hone eq_refl Hr) as [->|(v & -> & e & He & Hm)];
    [reflexivity|].
  destruct (values_inv_reachable
              (sys := mkActorSystem (Server ServerCfg_ :: check_clients n) [] LossyYes)
              eq_refl Hr) as (_ & Hmsg & _).
  specialize (Hmsg e v He (or_intror Hm)); simpl in Hmsg.
  unfold check_clients in Hmsg; rewrite check_clients_values in Hmsg.
  apply in_map_iff in Hmsg; destruct Hmsg as (i & <- & Hi).
  apply in_seq in Hi.
  rewrite client_value_small by lia.
  unfold u8_sub, u8_add.
  rewrite (N.mod_small (65 + n)) by lia.
  replace (65 + n + 256 - 1)%N with (64 + n + 1 * 256)%N by lia.
  rewrite N.Div0.mod_add, N.mod_small by lia.
  apply andb_true_intro; split; apply N.leb_le; lia.
Qed.

Lemma main_check_invariant_holds_witness :
  exists sys, check_command (str "5") = Some (5%N, sys)
              /\ main_check_invariant 5 sys (init_snapshot sys) = true.
Proof.
  eexists; split; [reflexivity|].
  apply (@main_check_invariant_holds (str "5")); [reflexivity|].
  apply reach_init.
Defined.

(** ** [response_values] depends only on the set of responses *)

Section ResponseValuesExt.
Context {Value ServerMsg ServerState : Type}.
Variable cmp : Value -> Value -> comparison.
Variable eqb : Value -> Value -> bool.
Hypothesis eqb_spec : forall a b, eqb a b = true <-> a = b.
Hypothesis cmp_eq : forall a b, cmp a b = Eq <-> a = b.
Hypothesis cmp_opp : forall a b, cmp b a = CompOpp (cmp a b).
Hypothesis cmp_trans : forall a b c, cmp a b = Lt -> cmp b c = Lt -> cmp a c = Lt.

Lemma cmp_irrefl (a : Value) : cmp a a <> Lt.
Proof. rewrite (proj2 (cmp_eq a a) eq_refl); discriminate. Qed.

Lemma strictly_sorted_ext (l1 l2 : list Value) :
  StronglySorted (fun a b => cmp a b = Lt) l1 ->
  StronglySorted (fun a b => cmp a b = Lt) l2 ->
  (forall x, In x l1 <-> In x l2) -> l1 = l2.
Proof.
  revert l2; induction l1 as [|a t1 IH]; intros l2 H1 H2 Hx.
  - destruct l2 as [|b t2]; [reflexivity|].
    exfalso; apply (proj2 (Hx b)); now left.
  - destruct l2 as [|b t2]; [exfalso; apply (proj1 (Hx a)); now left|].
    apply StronglySorted_inv in H1; destruct H1 as [S1 F1].
    apply StronglySorted_inv in H2; destruct H2 as [S2 F2].
    assert (a = b).
    { destruct (proj1 (Hx a) (or_introl eq_refl)) as [|Ha]; [congruence|].
      destruct (proj2 (Hx b) (or_introl eq_refl)) as [|Hb]; [congruence|].
      rewrite Forall_forall in F1, F2.
      exfalso; apply (cmp_irrefl (a := a)); eapply cmp_trans; [apply F1, Hb|apply F2, Ha]. }
    subst b; f_equal; apply IH; [exact S1|exact S2|].
    rewrite Forall_forall in F1, F2.
    intros x; split; intros Hin.
    + destruct (proj1 (Hx x) (or_intror Hin)) as [<-|H]; [|exact H].
      exfalso; exact (cmp_irrefl (F1 _ Hin)).
    + destruct (proj2 (Hx x) (or_intror Hin)) as [<-|H]; [|exact H].
      exfalso; exact (cmp_irrefl (F2 _ Hin)).
Qed.

(** X5: [response_values] depends only on which values are in [Respond]
    messages in flight: not on their order, their repeats, their senders
    and receivers or the other messages. *)
Theorem response_values_ext
    (s1 s2 : ActorSystemSnapshot (RegisterMsg Value ServerMsg)
                                 (RegisterState ServerState)) :
  (forall v, (exists e, In e (network s1) /\ env_msg e = Respond v)
             <-> (exists e, In e (network s2) /\ env_msg e = Respond v)) ->
  response_values cmp eqb s1 = response_values cmp eqb s2.
Proof.
  intros Hx.
  apply strictly_sorted_ext.
  - apply Sorted_StronglySorted; [exact cmp_trans|].
    exact (@response_values_Sorted Value ServerMsg ServerState cmp eqb
             eqb_spec cmp_eq cmp_opp s1).
  - apply Sorted_StronglySorted; [exact cmp_trans|].
    exact (@response_values_Sorted Value ServerMsg ServerState cmp eqb
             eqb_spec cmp_eq cmp_opp s2).
  - intros x.
    rewrite (@response_values_In Value ServerMsg ServerState cmp eqb eqb_spec cmp_eq s1 x),
            (@response_values_In Value ServerMsg ServerState cmp eqb eqb_spec cmp_eq s2 x).
    apply Hx.
Qed.
End ResponseValuesExt.

Lemma char_cmp_trans (a b c : char) :
  char_cmp a b = Lt -> char_cmp b c = Lt -> char_cmp a c = Lt.
Proof. unfold char_cmp; rewrite !N.compare_lt_iff; lia. Qed.

Lemma response_values_ext_witness :
  wor_response_values responses_xy = wor_response_values responses_yxy.
Proof.
  apply (@response_values_ext Value unit ServerState char_cmp char_eqb
           char_eqb_spec char_cmp_eq char_cmp_opp char_cmp_trans).
  intros v; split; intros (e & Hin & Hm); simpl in Hin.
  - destruct Hin as [<-|[<-|[]]]; simpl in Hm; injection Hm as <-.
    + exists (mkEnvelope 0 1 (Respond char_X)); simpl; auto.
    + exists (mkEnvelope 0 2 (Respond char_Y)); simpl; auto.
  - destruct Hin as [<-|[<-|[<-|[<-|[]]]]]; simpl in Hm;
      try discriminate; injection Hm as <-.
    + exists (mkEnvelope 0 2 (Respond char_Y)); simpl; auto.
    + exists (mkEnvelope 0 1 (Respond char_X)); simpl; auto.
    + exists (mkEnvelope 0 2 (Respond char_Y)); simpl; auto.
Defined.

(** ** Serialization never loses a message *)

Section RegisterSerdeDecode.
Context {Value ServerMsg ServerCfg : Type} `{SV : Serde Value} `{SM : Serde ServerMsg}.

(** X6: when both payload types round-trip, the bytes [serialize] gives
    for any message always decode: to the message itself, or, when the
    server-message decoder accepts those bytes, to an [Internal] message
    carrying what it decoded. *)
Theorem serialize_deserialize_decodes :
  (forall v : Value, from_json (to_json v) = Some v) ->
  (forall x : ServerMsg, from_json (to_json x) = Some x) ->
  forall (cfg : RegisterCfg Value ServerCfg) (m : RegisterMsg Value ServerMsg),
    exists bytes, RegisterCfg_serialize cfg m = Ok bytes
      /\ ((from_json (T := ServerMsg) bytes = None
           /\ RegisterCfg_deserialize cfg bytes = Ok m)
          \/ exists x, from_json (T := ServerMsg) bytes = Some x
                       /\ RegisterCfg_deserialize cfg bytes = Ok (Internal x)).
Proof.
  intros Hv Hx cfg m.
  destruct m as [v| |v|x].
  4: { exists (to_json x); split; [reflexivity|right; exists x; split; [exact (Hx x)|]].
       unfold RegisterCfg_deserialize, from_slice; now rewrite Hx. }
  all: eexists; split; [reflexivity|].
  all: unfold RegisterCfg_deserialize, from_slice.
  all: match goal with
       | |- context [@from_json ServerMsg SM ?b] =>
           destruct (@from_json ServerMsg SM b) as [x|] eqn:Hin
       end;
       [right; exists x; split; reflexivity|left; split; [reflexivity|]].
  all: simpl; rewrite ?chars_eqb_refl; simpl; rewrite ?Hv; reflexivity.
Qed.
End RegisterSerdeDecode.

Lemma rust_string_roundtrip (x : RustString) : from_json (to_json x) = Some x.
Proof. now destruct x. Qed.

Lemma serialize_deserialize_decodes_witness :
  exists bytes,
    RegisterCfg_serialize (Client [0] char_X : wor_Cfg) (@Get char RustString) = Ok bytes
    /\ ((from_json (T := RustString) bytes = None
         /\ RegisterCfg_deserialize (Client [0] char_X : wor_Cfg) bytes
              = Ok (@Get char RustString))
        \/ exists x, from_json (T := RustString) bytes = Some x
                     /\ RegisterCfg_deserialize (Client [0] char_X : wor_Cfg) bytes
                          = Ok (@Internal char RustString x)).
Proof.
  apply serialize_deserialize_decodes; [exact char_roundtrip|exact rust_string_roundtrip].
Defined.

(** ** Counterexamples of the checker *)

Section CheckerPaths.
Context {Cfg Msg State : Type} `{A : Actor Cfg Msg State}.
Variable snapshot_eqb :
  ActorSystemSnapshot Msg State -> ActorSystemSnapshot Msg State -> bool.
Variable invariant :
  ActorSystem Cfg Msg -> ActorSystemSnapshot Msg State -> bool.
Variable sys : ActorSystem Cfg Msg.

Let s0 := init_snapshot sys.

Lemma visit_successors_paths (s : ActorSystemSnapshot Msg State)
    (path : list (SystemAction Msg))
    (succs : list (SystemAction Msg * ActorSystemSnapshot Msg State)) :
  Path sys s0 path s ->
  (forall a s', In (a, s') succs -> In (a, s') (next_steps sys s)) ->
  forall frontier visited,
  (forall t p, In (t, p) frontier -> Path sys s0 p t) ->
  match visit_successors snapshot_eqb invariant sys path succs frontier visited with
  | inl fail_path => exists t, Path sys s0 fail_path t /\ invariant sys t = false
  | inr (frontier', _) => forall t p, In (t, p) frontier' -> Path sys s0 p t
  end.
Proof.
  intros Hp Hsub; induction succs as [|[a s'] rest IH]; intros frontier visited Hf;
    simpl; [exact Hf|].
  assert (Hs' : Path sys s0 (path ++ [a]) s')
    by (eapply path_snoc; [exact Hp|apply Hsub; now left]).
  assert (Hrest : forall a s', In (a, s') rest -> In (a, s') (next_steps sys s))
    by (intros a' t Ht; apply Hsub; now right).
  destruct (invariant sys s') eqn:Hinv; simpl.
  - destruct (visited_mem snapshot_eqb s' visited).
    + exact (IH Hrest frontier visited Hf).
    + apply (IH Hrest); intros t p Ht; apply in_app_or in Ht.
      destruct Ht as [Ht|[Ht|[]]]; [exact (Hf t p Ht)|].
      injection Ht as <- <-; exact Hs'.
  - exists s'; split; [exact Hs'|exact Hinv].
Qed.

Lemma explore_paths (bound : nat)
    (frontier : list (ActorSystemSnapshot Msg State * list (SystemAction Msg)))
    (visited : list (ActorSystemSnapshot Msg State)) fail_path visited' :
  (forall t p, In (t, p) frontier -> Path sys s0 p t) ->
  explore snapshot_eqb invariant sys bound frontier visited
    = (Fail fail_path, visited') ->
  exists t, Path sys s0 fail_path t /\ invariant sys t = false.
Proof.
  revert frontier visited; induction bound as [|bound IH];
    intros frontier visited Hf Hex; simpl in Hex; [discriminate|].
  destruct frontier as [|[s path] rest]; [discriminate|].
  pose proof (@visit_successors_paths s path (next_steps sys s)
                (Hf s path (or_introl eq_refl)) (fun a s' H => H) rest visited
                (fun t p H => Hf t p (or_intror H))) as Hv.
  destruct (visit_successors snapshot_eqb invariant sys path (next_steps sys s) rest visited)
    as [fp|[frontier' visited'']].
  - injection Hex as -> _; exact Hv.
  - exact (IH _ _ Hv Hex).
Qed.

(** X7 (the checker, modelled from the spec): a counterexample the checker
    reports is genuine: replaying its actions from the initial snapshot
    reaches a snapshot that violates the invariant. *)
Theorem check_fail_path_sound (bound : nat) fail_path
    (visited : list (ActorSystemSnapshot Msg State)) :
  check snapshot_eqb invariant sys bound = (Fail fail_path, visited) ->
  exists t, Path sys (init_snapshot sys) fail_path t /\ invariant sys t = false.
Proof.
  unfold check; fold s0.
  destruct (invariant sys s0) eqn:H0; simpl.
  - apply explore_paths.
    intros t p [Ht|[]]; injection Ht as <- <-; apply path_nil.
  - intros Hc; injection Hc as <- _.
    exists s0; split; [apply path_nil|exact H0].
Qed.
End CheckerPaths.

Lemma check_fail_path_sound_witness :
  exists fail_path,
    fst (check snapshot_eqb no_response_invariant can_model_wor_system 100)
      = Fail fail_path
    /\ exists t, Path can_model_wor_system (init_snapshot can_model_wor_system)
                   fail_path t
                 /\ no_response_invariant can_model_wor_system t = false.
Proof.
  destruct (check snapshot_eqb no_response_invariant can_model_wor_system 100)
    as [[|fail_path] visited] eqn:Hc.
  - exfalso; vm_compute in Hc; discriminate.
  - exists fail_path; split; [reflexivity|].
    exact (@check_fail_path_sound _ _ _ _ snapshot_eqb no_response_invariant
             can_model_wor_system 100 fail_path visited Hc).
Defined.

(** ** Routes of the messages *)

Lemma client_sends_routes (i : Id) (ids : list Id) (v : Value) e :
  In e (envelopes_of i (client_sends (ServerMsg := unit) ids v)) ->
  env_src e = i /\ (env_msg e = Put v \/ env_msg e = Get).
Proof.
  induction ids as [|id rest IH]; simpl; [tauto|].
  intros [<-|[<-|H]]; simpl; auto.
Qed.

Lemma start_all_routes (i : Id) (cfgs : list wor_Cfg) states envs :
  start_all (A := RegisterCfg_Actor) i cfgs = (states, envs) ->
  forall e, In e envs ->
    (exists v, env_msg e = Put v \/ env_msg e = Get)
    /\ exists k ids v, env_src e = i + k /\ nth_error cfgs k = Some (Client ids v).
Proof.
  revert i states envs; induction cfgs as [|cfg rest IH]; intros i states envs H e Hin.
  - simpl in H; injection H as <- <-; destruct Hin.
  - simpl in H.
    destruct (start_all (A := RegisterCfg_Actor) (S i) rest) as [states' envs'] eqn:Hr.
    injection H as <- <-.
    apply in_app_or in Hin; destruct Hin as [Hin|Hin].
    + destruct cfg as [ids dv|sc]; simpl in Hin; [|destruct Hin].
      destruct (client_sends_routes _ _ _ _ Hin) as [Hsrc Hm].
      split; [exists dv; exact Hm|].
      exists 0, ids, dv; split; [lia|reflexivity].
    + destruct (IH _ _ _ Hr e Hin) as [Hm (k & ids & v & Hsrc & Hk)].
      split; [exact Hm|].
      exists (S k), ids, v; split; [lia|exact Hk].
Qed.

Lemma route_inv_init (sys : ActorSystem wor_Cfg wor_Msg) :
  init_network sys = [] -> route_inv sys (init_snapshot sys).
Proof.
  intros Hinit; unfold init_snapshot.
  match goal with
  | |- context [@start_all ?C ?M ?S ?I ?i ?c] =>
      destruct (@start_all C M S I i c) as [states envs] eqn:H
  end.
  unfold route_inv; intros e Hin; simpl in Hin; rewrite Hinit in Hin; simpl in Hin.
  destruct (start_all_routes _ _ H e Hin) as [[v Hm] (k & ids & w & Hsrc & Hk)].
  simpl in Hsrc; subst k.
  destruct e as [src dst msg]; simpl in *.
  destruct Hm as [-> | ->]; exists ids, w; exact Hk.
Qed.

Lemma route_inv_step (sys : ActorSystem wor_Cfg wor_Msg) (s s' : wor_Snapshot) :
  route_inv sys s -> Step (A := RegisterCfg_Actor) sys s s' -> route_inv sys s'.
Proof.
  intros Hinv [a Hin].
  unfold next_steps in Hin.
  destruct (steps_from_cases _ _ _ _ _ _ Hin) as (j & e & He & [-> | Hd]).
  - intros e' Hin'; apply Hinv; eapply In_remove_nth; exact Hin'.
  - unfold deliver in Hd.
    destruct_option_in Hd cfg Hc; [|discriminate].
    destruct_option_in Hd st Hs; [|discriminate].
    destruct_option_in Hd r Ha; injection Hd as <-.
    + intros e' Hin'; simpl in Hin'; apply in_app_or in Hin'.
      destruct Hin' as [Hin'|Hin'];
        [apply Hinv; eapply In_remove_nth; exact Hin'|].
      destruct (wor_advance_some _ _ _ _ Ha)
        as (ss & _ & [(v & Hm & _ & _ & Hout)|(v & Hm & _ & _ & Hout)]);
        destruct r as [rst routs]; simpl in Hout; subst routs;
        simpl in Hin'; [destruct Hin'|].
      destruct Hin' as [<-|[]]; simpl.
      split.
      * destruct cfg as [ids dv|sc]; [simpl in Ha; discriminate|].
        exists sc; exact Hc.
      * specialize (Hinv e He); destruct e as [src dst msg]; simpl in *.
        subst msg; exact Hinv.
    + intros e' Hin'; apply Hinv; eapply In_remove_nth; exact Hin'.
Qed.

Lemma route_inv_reachable (sys : ActorSystem wor_Cfg wor_Msg) (s : wor_Snapshot) :
  init_network sys = [] -> Reachable (A := RegisterCfg_Actor) sys s -> route_inv sys s.
Proof.
  intros Hinit Hr; induction Hr as [|s s' Hr IH Hstep].
  - apply route_inv_init; exact Hinit.
  - eapply route_inv_step; eauto.
Qed.

(** X8: in every reachable snapshot of a register system whose network
    starts empty, every [Respond] in flight was sent by a server to a
    client, every [Put] and [Get] was sent by a client, and no [Internal]
    message is ever sent. *)
Theorem reachable_routes (sys : ActorSystem wor_Cfg wor_Msg) (s : wor_Snapshot) :
  init_network sys = [] -> Reachable (A := RegisterCfg_Actor) sys s ->
  forall e, In e (network s) ->
    match env_msg e with
    | Put _ | Get =>
        exists ids v, nth_error (actors sys) (env_src e) = Some (Client ids v)
    | Respond _ =>
        (exists sc, nth_error (actors sys) (env_src e) = Some (Server sc))
        /\ exists ids v, nth_error (actors sys) (env_dst e) = Some (Client ids v)
    | Internal _ => False
    end.
Proof. intros Hinit Hr; exact (route_inv_reachable Hinit Hr). Qed.

Lemma reachable_routes_witness :
  init_network can_model_wor_system = []
  /\ exists ids v,
       nth_error (actors can_model_wor_system)
         (env_src (mkEnvelope 1 0 (Put char_X) : Envelope wor_Msg))
       = Some (Client ids v).
Proof.
  split; [reflexivity|].
  exact (@reachable_routes can_model_wor_system (init_snapshot can_model_wor_system)
           eq_refl ltac:(apply reach_init) (mkEnvelope 1 0 (Put char_X))
           ltac:(vm_compute; auto)).
Defined.

(** ** Parsing the client count *)

Lemma fold_digits_ge (acc : N) (s : list char) :
  (acc <= fold_left (fun acc c => (acc * 10 + (c - 48))%N) s acc)%N.
Proof.
  revert acc; induction s as [|c rest IH]; intros acc; simpl; [lia|].
  specialize (IH (acc * 10 + (c - 48))%N); lia.
Qed.

Lemma u8_digits_value (acc : N) (s : list char) :
  (acc <= 255)%N ->
  u8_digits acc s
  = let v := fold_left (fun acc c => (acc * 10 + (c - 48))%N) s acc in
    if forallb is_digit s && (v <=? 255)%N then Some v else None.
Proof.
  revert acc; induction s as [|c rest IH]; intros acc Hacc; simpl.
  - apply N.leb_le in Hacc; now rewrite Hacc.
  - unfold is_digit; destruct ((48 <=? c)%N && (c <=? 57)%N); simpl; [|reflexivity].
    destruct (acc * 10 + (c - 48) <=? 255)%N eqn:Hle.
    + apply N.leb_le in Hle; exact (IH _ Hle).
    + apply N.leb_gt in Hle.
      pose proof (fold_digits_ge (acc * 10 + (c - 48)) rest) as Hge.
      replace (_ <=? 255)%N with false by (symmetry; apply N.leb_gt; lia).
      now rewrite andb_false_r.
Qed.

(** X9: a non-empty string of decimal digits, with or without a leading
    ['+'], parses as the [client_count] it denotes when that is at most
    255, leading zeros allowed, and is rejected otherwise. *)
Theorem u8_from_str_decimal (s : list char) :
  s <> [] -> forallb is_digit s = true ->
  u8_from_str s = (if (decimal_value s <=? 255)%N then Some (decimal_value s) else None)
  /\ u8_from_str (43%N :: s)
     = (if (decimal_value s <=? 255)%N then Some (decimal_value s) else None).
Proof.
  intros Hne Hd.
  assert (Hp : u8_digits 0 s
               = if (decimal_value s <=? 255)%N then Some (decimal_value s) else None).
  { rewrite u8_digits_value by lia; simpl; now rewrite Hd. }
  split.
  - destruct s as [|c rest]; [contradiction|].
    unfold u8_from_str.
    assert (Hc : (c =? 43)%N = false).
    { simpl in Hd; unfold is_digit in Hd.
      apply andb_true_iff in Hd; destruct Hd as [Hd _].
      apply andb_true_iff in Hd; destruct Hd as [H1 H2].
      apply N.leb_le in H1; apply N.eqb_neq; lia. }
    rewrite Hc; exact Hp.
  - unfold u8_from_str; rewrite N.eqb_refl.
    destruct s as [|c rest]; [contradiction|exact Hp].
Qed.

Lemma u8_from_str_decimal_witness :
  u8_from_str (str "030") = Some 30%N /\ u8_from_str (str "+256") = None.
Proof.
  split.
  - exact (proj1 (@u8_from_str_decimal (str "030") ltac:(discriminate) eq_refl)).
  - exact (proj2 (@u8_from_str_decimal (str "256") ltac:(discriminate) eq_refl)).
Defined.
